(** * The Countdown numbers solver (numbersSolver.py)

    A shallow embedding of the RPN evaluator, the random sequence
    generator, the infix formatter and the closest-solution bookkeeping of
    the search loop, followed by the properties proved about them.

    Conventions.
    - A Python [int] is a [Z]; [divmod] is floor division, which is what
      [Z.div] and [Z.modulo] compute.
    - A Python list is a [list] in the same order: index [-1] is the last
      element, [append] adds at the end and [pop()] removes the last one.
    - A sequence element is an [int] or a [str] ([element]).
    - A raised exception is a value of [exn]; code that mutates a list in
      place returns the list as it is left, also when it raises.
    - The module [random] is an interface ([Random]) with the contract of
      [shuffle] and [sample]; the [print] calls write to the terminal only
      and are left out. *)

From stdpp Require Import base option list strings.
From Stdlib Require Import ZArith Lia Ascii DecimalString.

Local Open Scope Z_scope.

(** ** Python values and exceptions *)

Inductive exn : Type :=
  | ValueError
  | IndexError
  | UnboundLocalError.

Inductive result (A : Type) : Type :=
  | Ok (a : A)
  | Raise (e : exn).
Arguments Ok {A} a.
Arguments Raise {A} e.

Inductive element : Type :=
  | PInt (z : Z)
  | PStr (s : string).

Global Instance exn_eq_dec : EqDecision exn.
Proof. solve_decision. Defined.

Global Instance element_eq_dec : EqDecision element.
Proof. solve_decision. Defined.

(** ** Python list operations *)

Section PyList.
Context {A : Type}.

(** [l[-k]] for [k >= 1]; [None] stands for IndexError. *)
Definition index_neg (k : nat) (l : list A) : option A :=
  if decide (1 ≤ k ≤ length l)%nat then l !! (length l - k)%nat else None.

(** [l.pop()]: the last element and the list without it. *)
Definition pop (l : list A) : option (A * list A) :=
  match last l with
  | Some x => Some (x, take (length l - 1)%nat l)
  | None => None
  end.

(** [l[-1] = v] *)
Definition set_last (v : A) (l : list A) : option (list A) :=
  match l with
  | [] => None
  | _ => Some (<[(length l - 1)%nat := v]> l)
  end.
End PyList.

(** ** A state-and-exception monad for code that mutates one list *)

Definition M (S A : Type) : Type := S → result A * S.

Definition ret {S A} (a : A) : M S A := λ s, (Ok a, s).
Definition raise {S A} (e : exn) : M S A := λ s, (Raise e, s).
Definition bind {S A B} (m : M S A) (f : A → M S B) : M S B :=
  λ s, match m s with
       | (Ok a, s') => f a s'
       | (Raise e, s') => (Raise e, s')
       end.

Declare Scope py_scope.
Delimit Scope py_scope with py.
Notation "'let*' x ':=' m 'in' k" := (bind m (λ x, k))
  (at level 10, x name, m at level 100, k at level 200) : py_scope.
Notation "'do' m 'in' k" := (bind m (λ _, k))
  (at level 10, m at level 100, k at level 200) : py_scope.

(** Reads and writes of the stack, IndexError when out of range. *)
Definition stack_index (k : nat) : M (list Z) Z :=
  λ s, match index_neg k s with
       | Some v => (Ok v, s)
       | None => (Raise IndexError, s)
       end.

Definition stack_pop : M (list Z) Z :=
  λ s, match pop s with
       | Some (v, s') => (Ok v, s')
       | None => (Raise IndexError, s)
       end.

Definition stack_set_last (v : Z) : M (list Z) unit :=
  λ s, match set_last v s with
       | Some s' => (Ok (), s')
       | None => (Raise IndexError, s)
       end.

Definition stack_append (v : Z) : M (list Z) unit :=
  λ s, (Ok (), s ++ [v]).

(** ** rpnEvaluate *)

(** Lines 83-96. The local variable [result] is bound by the branch of
    the operator; for a string that is none of the four operators it stays
    unbound ([None]) and reading it raises UnboundLocalError, after
    [stack.pop()]. *)
Definition rpn_result (op : string) : M (list Z) (option Z) :=
  (if decide (op = "+") then
     let* a := stack_index 2 in
     let* b := stack_index 1 in
     ret (Some (a + b))
   else if decide (op = "-") then
     let* a := stack_index 2 in
     let* b := stack_index 1 in
     let result := a - b in
     if result <? 0 then raise ValueError else ret (Some result)
   else if decide (op = "*") then
     let* a := stack_index 2 in
     let* b := stack_index 1 in
     ret (Some (a * b))
   else if decide (op = "/") then
     let* b := stack_index 1 in
     if b =? 0 then raise ValueError else
     let* a := stack_index 2 in
     let* b := stack_index 1 in
     let '(result, remainder) := Z.div_eucl a b in
     if negb (remainder =? 0) then raise ValueError else ret (Some result)
   else ret None)%py.

(** Lines 82-100. The stack is the state; the function returns the same
    list object, which callers do not use. *)
Definition rpnEvaluate (el : element) : M (list Z) unit :=
  match el with
  | PStr op =>
      (let* result := rpn_result op in
       do stack_pop in
       match result with
       | Some v => stack_set_last v
       | None => raise UnboundLocalError
       end)%py
  | PInt z => stack_append z
  end.

(** ** The module [random]

    The generator calls [random.shuffle], [random.random] and
    [random.sample]. They read and advance the state of the process-wide
    generator ([rng]). What the code relies on is their documented contract:
    [shuffle] permutes its argument, and [sample(population, k)] with
    [k = len(population)] returns the population in some order. *)

Class Random : Type := {
  rng : Type;
  (** [random.shuffle(l)]: the shuffled list. *)
  random_shuffle : list Z → rng → list Z * rng;
  (** [random.random() < 0.5] *)
  random_lt_half : rng → bool * rng;
  (** [random.sample(population, k)] *)
  random_sample : list string → nat → rng → list string * rng;
  random_shuffle_perm : ∀ l g, (random_shuffle l g).1 ≡ₚ l;
  random_sample_perm : ∀ l g, (random_sample l (length l) g).1 ≡ₚ l
}.

(** ** generateRandomSequence *)

Definition operatorSet : list string := ["+"; "-"; "*"; "/"].

(** The local variables of [generateRandomSequence] that the loop updates.
    [operator] is the variable of the inner [for]; it is unbound ([None])
    until that loop has run once. *)
Record locals : Type := Locals {
  sequence : list element;
  numbers : list Z;
  interimResults : list Z;
  stack : list Z;
  operator : option string
}.

Inductive for_exit : Type :=
  | Broke       (* left by [break] *)
  | Exhausted.  (* the iterable ran out *)

(** [for operator in operators: try: rpnEvaluate(stack, operator); break
     except ValueError: continue].
    Returns how the loop ended, the loop variable and the stack. Any
    exception other than ValueError propagates. *)
Fixpoint try_operators (operators : list string) (operator : option string)
    (stack : list Z) : result for_exit * option string * list Z :=
  match operators with
  | [] => (Ok Exhausted, operator, stack)
  | op :: rest =>
      match rpnEvaluate (PStr op) stack with
      | (Ok _, stack') => (Ok Broke, Some op, stack')
      | (Raise ValueError, stack') => try_operators rest (Some op) stack'
      | (Raise e, stack') => (Raise e, Some op, stack')
      end
  end.

Inductive next_element : Type :=
  | NextNumber
  | NextOperator.

Section Generator.
Context `{Random}.

(** Lines 46-56: which kind of element comes next. *)
Definition choose_next (st : locals) (g : rng) : next_element * rng :=
  if decide (length (stack st) < 2)%nat then (NextNumber, g)
  else if decide (length (numbers st) = 0%nat) then (NextOperator, g)
  else
    let '(lt, g) := random_lt_half g in
    (if lt then NextNumber else NextOperator, g).

(** Lines 58-71: the element is appended. *)
Definition append_next (next : next_element) (st : locals) (g : rng)
    : result (locals * rng) :=
  match next with
  | NextNumber =>
      match pop (numbers st) with
      | None => Raise IndexError
      | Some (element, numbers') =>
          Ok ({| sequence := sequence st ++ [PInt element];
                 numbers := numbers';
                 interimResults := interimResults st;
                 stack := stack st ++ [element];
                 operator := operator st |}, g)
      end
  | NextOperator =>
      let '(operators, g) := random_sample operatorSet 4 g in
      match try_operators operators (operator st) (stack st) with
      | (Raise e, _, _) => Raise e
      | (Ok _, None, _) => Raise UnboundLocalError
      | (Ok _, Some op, stack') =>
          match index_neg 1 stack' with
          | None => Raise IndexError
          | Some top =>
              Ok ({| sequence := sequence st ++ [PStr op];
                     numbers := numbers st;
                     interimResults := interimResults st ++ [top];
                     stack := stack';
                     operator := Some op |}, g)
          end
      end
  end.

(** One iteration of [for i in range(9)]. *)
Definition loop_body (st : locals) (g : rng) : result (locals * rng) :=
  let '(next, g) := choose_next st g in
  append_next next st g.

(** [n] iterations of the loop. *)
Fixpoint for_range (n : nat) (st : locals) (g : rng)
    : result (locals * rng) :=
  match n with
  | O => Ok (st, g)
  | S n' =>
      match loop_body st g with
      | Ok (st', g') => for_range n' st' g'
      | Raise e => Raise e
      end
  end.

(** Lines 34-41: the state in which the loop is entered. [sequence] holds
    the two numbers popped and [stack] is a copy of it. *)
Definition initial_locals (numbersIn : list Z) (g : rng)
    : result (locals * rng) :=
  let numbers := numbersIn in
  let interimResults := numbers in
  let '(numbers, g) := random_shuffle numbers g in
  match pop numbers with
  | None => Raise IndexError
  | Some (n1, numbers) =>
      match pop numbers with
      | None => Raise IndexError
      | Some (n2, numbers) =>
          Ok ({| sequence := [PInt n1; PInt n2];
                 numbers := numbers;
                 interimResults := interimResults;
                 stack := [n1; n2];
                 operator := None |}, g)
      end
  end.

(** The locals after [i] iterations of the loop. *)
Definition locals_after (i : nat) (numbersIn : list Z) (g : rng)
    : result (locals * rng) :=
  match initial_locals numbersIn g with
  | Ok (st, g) => for_range i st g
  | Raise e => Raise e
  end.

Definition generateRandomSequence (numbersIn : list Z) (g : rng)
    : result (list element * list Z * rng) :=
  match locals_after 9 numbersIn g with
  | Ok (st, g) => Ok (sequence st, interimResults st, g)
  | Raise e => Raise e
  end.
End Generator.

(** ** formatSolution *)

(** [str(z)] for an [int]. *)
Definition str (z : Z) : string := NilZero.string_of_int (Z.to_int z).

(** ['({} {} {})'.format(l, op, r)] *)
Definition format_infix (l op r : string) : string :=
  "(" +:+ l +:+ " " +:+ op +:+ " " +:+ r +:+ ")".

(** [char.isnumeric()]. The strings scanned are made of [str] of integers,
    the four operators, spaces and parentheses, where it holds of the
    decimal digits only. *)
Definition isnumeric (c : ascii) : bool :=
  let n := nat_of_ascii c in ((48 <=? n) && (n <=? 57))%nat.

(** [s.split(sep)] for a separator of one character. *)
Fixpoint split (sep : ascii) (s : string) : list string :=
  match s with
  | EmptyString => [EmptyString]
  | String c rest =>
      if decide (c = sep) then EmptyString :: split sep rest
      else match split sep rest with
           | tok :: toks => String c tok :: toks
           | [] => [String c EmptyString]
           end
  end.

(** Lines 131-136: every character that is not numeric becomes a space. *)
Fixpoint blank_non_numeric (s : string) : string :=
  match s with
  | EmptyString => EmptyString
  | String char rest =>
      String (if isnumeric char then char else " "%char)
             (blank_non_numeric rest)
  end.

(** Lines 131-141: the digit runs of the expression are counted. *)
Definition count_numbers (expression : string) : nat :=
  let tempString := blank_non_numeric expression in
  let tokens := split " " tempString in
  length (filter (λ token, (0 < String.length token)%nat) tokens).

Inductive flow : Type :=
  | Next   (* go on with the next element, also after [continue] *)
  | Stop.  (* [break] *)

(** The condition of line 109. *)
Definition ignores (ignoreMultiplyByOne : bool) (calcStack : list Z)
    (el : element) : bool :=
  ignoreMultiplyByOne
  && bool_decide (0 < length calcStack)%nat
  && match index_neg 1 calcStack with Some top => top =? 1 | None => false end
  && bool_decide (el ∈ [PStr "*"; PStr "/"]).

(** Lines 109-128: the body of the loop over the sequence. *)
Definition format_element (target : Z) (ignoreMultiplyByOne : bool)
    (el : element) (calcStack : list Z) (outputStack : list string)
    : result (flow * list Z * list string) :=
  if ignores ignoreMultiplyByOne calcStack el then
    match pop calcStack with
    | None => Raise IndexError
    | Some (_, calcStack) =>
        match pop outputStack with
        | None => Raise IndexError
        | Some (_, outputStack) => Ok (Next, calcStack, outputStack)
        end
    end
  else
    match rpnEvaluate el calcStack with
    | (Raise e, _) => Raise e
    | (Ok _, calcStack) =>
        match el with
        | PInt z => Ok (Next, calcStack, outputStack ++ [str z])
        | PStr op =>
            match index_neg 2 outputStack, index_neg 1 outputStack with
            | Some l, Some r =>
                let result :=
                  if bool_decide (el ∈ [PStr "+"; PStr "*"])
                     && (String.length l <? String.length r)%nat
                  then format_infix r op l
                  else format_infix l op r in
                match pop outputStack with
                | None => Raise IndexError
                | Some (_, outputStack) =>
                    match set_last result outputStack with
                    | None => Raise IndexError
                    | Some outputStack =>
                        match index_neg 1 calcStack with
                        | None => Raise IndexError
                        | Some top =>
                            Ok (if top =? target then Stop else Next,
                                calcStack, outputStack)
                        end
                    end
                end
            | _, _ => Raise IndexError
            end
        end
    end.

(** Lines 108-128: the loop, with the two stacks as it leaves them. *)
Fixpoint format_loop (target : Z) (ignoreMultiplyByOne : bool)
    (sequence : list element) (calcStack : list Z)
    (outputStack : list string) : result (list Z * list string) :=
  match sequence with
  | [] => Ok (calcStack, outputStack)
  | el :: rest =>
      match format_element target ignoreMultiplyByOne el
              calcStack outputStack with
      | Raise e => Raise e
      | Ok (Stop, calcStack, outputStack) => Ok (calcStack, outputStack)
      | Ok (Next, calcStack, outputStack) =>
          format_loop target ignoreMultiplyByOne rest calcStack outputStack
      end
  end.

Definition formatSolution (sequence : list element) (target : Z)
    (ignoreMultiplyByOne : bool) : result (string * nat) :=
  match format_loop target ignoreMultiplyByOne sequence [] [] with
  | Raise e => Raise e
  | Ok (calcStack, outputStack) =>
      match index_neg 1 outputStack with
      | None => Raise IndexError
      | Some expression =>
          Ok (expression +:+ " = " +:+ str target, count_numbers expression)
      end
  end.

(** ** The search loop *)

(** Lines 188-192: one interim result is compared with the closest
    solution so far. *)
Definition update_closest (target : Z) (sequence : list element)
    (closestSolution : option (Z * list element)) (result : Z)
    : option (Z * list element) :=
  match closestSolution with
  | None => Some (result, sequence)
  | Some (closest, _) =>
      if Z.abs (target - result) <? Z.abs (target - closest)
      then Some (result, sequence)
      else closestSolution
  end.

(** Lines 187-192: [for result in interimResults]. *)
Definition scan_results (target : Z) (sequence : list element)
    (interimResults : list Z) (closestSolution : option (Z * list element))
    : option (Z * list element) :=
  foldl (update_closest target sequence) closestSolution interimResults.

Section Search.
Context `{Random}.

(** Lines 181-194. The test of the time limit reads the clock; its
    successive outcomes are given as [clock], the loop ending when an
    outcome is [false] (or none is left). [attempts] is not a variable of
    the program: it keeps the sequence and the interim results of every
    attempt made (the loop prints them), the last one first, so that the
    statements can speak of them. *)
Fixpoint search_loop (clock : list bool) (numbers : list Z) (target : Z)
    (closestSolution : option (Z * list element))
    (attempts : list (list element * list Z)) (g : rng)
    : result (option (Z * list element)
              * list (list element * list Z) * rng) :=
  match clock with
  | [] | false :: _ => Ok (closestSolution, attempts, g)
  | true :: clock =>
      match generateRandomSequence numbers g with
      | Raise e => Raise e
      | Ok (sequence, interimResults, g) =>
          let closestSolution :=
            scan_results target sequence interimResults closestSolution in
          let attempts := (sequence, interimResults) :: attempts in
          if bool_decide (target ∈ interimResults)
          then Ok (closestSolution, attempts, g)
          else search_loop clock numbers target closestSolution attempts g
      end
  end.
End Search.

(** ** The vocabulary of the statements *)

(** Reading a sequence. *)

(** The numbers of a sequence, in order. *)
Definition numbers_of (seq : list element) : list Z :=
  omap (λ el, match el with PInt z => Some z | PStr _ => None end) seq.

(** The strings of a sequence, in order. *)
Definition operators_of (seq : list element) : list string :=
  omap (λ el, match el with PStr s => Some s | PInt _ => None end) seq.

(** Operands seen minus operators seen. *)
Definition excess (seq : list element) : Z :=
  Z.of_nat (length (numbers_of seq)) - Z.of_nat (length (operators_of seq)).

(** Replaying a sequence through the evaluator, left to right from the
    given stack: the value on top of the stack after each operator, in
    order, and the stack that is left. *)
Fixpoint replay (seq : list element) (stack : list Z)
    : result (list Z * list Z) :=
  match seq with
  | [] => Ok ([], stack)
  | el :: rest =>
      match rpnEvaluate el stack with
      | (Raise e, _) => Raise e
      | (Ok _, stack') =>
          match el with
          | PInt _ => replay rest stack'
          | PStr _ =>
              match index_neg 1 stack', replay rest stack' with
              | Some top, Ok (tops, final) => Ok (top :: tops, final)
              | None, _ => Raise IndexError
              | _, Raise e => Raise e
              end
          end
      end
  end.

(** The number that belongs to the expression returned: the two stacks
    are kept in step, and line 126 prints [calcStack[-1]] as the value of
    [outputStack[-1]]. It is defined when [formatSolution] returns, and
    is then the value of the expression ([formatSolution_expression]). *)
Definition final_value (sequence : list element) (target : Z)
    (ignoreMultiplyByOne : bool) : result Z :=
  match format_loop target ignoreMultiplyByOne sequence [] [] with
  | Raise e => Raise e
  | Ok (calcStack, outputStack) =>
      match index_neg 1 outputStack, index_neg 1 calcStack with
      | Some _, Some value => Ok value
      | _, _ => Raise IndexError
      end
  end.

(** The results of several attempts, scanned one attempt after the other. *)
Definition scan_attempts (target : Z)
    (attempts : list (list element * list Z))
    (closestSolution : option (Z * list element))
    : option (Z * list element) :=
  foldl (λ closest attempt, scan_results target attempt.1 attempt.2 closest)
        closestSolution attempts.

(** Every interim result of the attempts with the sequence it comes from,
    in the order in which the loop meets them. *)
Definition results_seen (attempts : list (list element * list Z))
    : list (Z * list element) :=
  attempts ≫= λ attempt, (λ result, (result, attempt.1)) <$> attempt.2.

(** What a call leaves: the exception raised, if any. *)
Definition raises {A S : Type} (r : result A * S) (e : exn) : Prop :=
  r.1 = Raise e.

Definition fails {A S : Type} (r : result A * S) : Prop :=
  ∃ e, raises r e.

(** What an operator makes of [a] (second from the top) and [b] (on
    top): a value or ValueError, and [None] for a string that is none of
    the four. [rpnEvaluate_operator] is the evaluator in these terms. *)
Definition apply_operator (op : string) (a b : Z) : option (result Z) :=
  if decide (op = "+") then Some (Ok (a + b))
  else if decide (op = "-") then
    Some (if a - b <? 0 then Raise ValueError else Ok (a - b))
  else if decide (op = "*") then Some (Ok (a * b))
  else if decide (op = "/") then
    Some (if b =? 0 then Raise ValueError
          else if negb (a `mod` b =? 0) then Raise ValueError
          else Ok (a `div` b))
  else None.

(** The reading of "at every prefix the operands exceed the operators by
    at least 1, and by exactly 1 only at the very end": prefixes are the
    non-empty ones, the end is the whole sequence. *)
Definition excess_one_only_at_end (seq : list element) : Prop :=
  ∀ n, (1 ≤ n ≤ length seq)%nat →
       1 ≤ excess (take n seq)
       ∧ (excess (take n seq) = 1 ↔ n = length seq).

(** Lines 119-122: the string for [x op y], the shorter operand second
    when the operator is [+] or [*]. *)
Definition infix_result (op x y : string) : string :=
  if bool_decide (PStr op ∈ [PStr "+"; PStr "*"])
     && (String.length x <? String.length y)%nat
  then format_infix y op x
  else format_infix x op y.

(** Infix expressions, the strings they are written as and their values
    under the rules of the evaluator. *)
Inductive expr : Type :=
  | Num (z : Z)
  | Bin (op : string) (l r : expr).

Fixpoint render (e : expr) : string :=
  match e with
  | Num z => str z
  | Bin op l r => format_infix (render l) op (render r)
  end.

Fixpoint value (e : expr) : option Z :=
  match e with
  | Num z => Some z
  | Bin op l r =>
      match value l, value r with
      | Some a, Some b =>
          match apply_operator op a b with
          | Some (Ok v) => Some v
          | _ => None
          end
      | _, _ => None
      end
  end.

(** Every string of [outputStack] is an expression whose value is the
    number at the same place of [calcStack]. *)
Definition stacks_agree (calcStack : list Z) (outputStack : list string)
    : Prop :=
  Forall2 (λ v s, ∃ e, render e = s ∧ value e = Some v) calcStack outputStack.

(** The reading of "ignoreMultiplyByOne=True produces the same final
    numeric value as ignoreMultiplyByOne=False". *)
Definition same_final_value (seq : list element) (target : Z) : Prop :=
  ∀ vT vF,
    final_value seq target true = Ok vT →
    final_value seq target false = Ok vF →
    vT = vF.

(** The loop over the interim results of all attempts, as one loop over
    the results with their sequences. *)
Definition scan_seen (target : Z) (seen : list (Z * list element))
    (closestSolution : option (Z * list element))
    : option (Z * list element) :=
  foldl (λ closest x, update_closest target x.2 closest x.1)
        closestSolution seen.

(** [best] is the first of the results seen that is as close to the
    target as any of them. *)
Definition earliest_closest (target : Z) (seen : list (Z * list element))
    (best : Z * list element) : Prop :=
  ∃ pre post,
    seen = pre ++ best :: post
    ∧ Forall (λ x, Z.abs (target - best.1) < Z.abs (target - x.1)) pre
    ∧ Forall (λ x, Z.abs (target - best.1) ≤ Z.abs (target - x.1)) post.

(** What holds of the locals when [k] iterations are still to come. *)
Record gen_inv (numbersIn : list Z) (k : nat) (st : locals) : Prop := GenInv {
  inv_count : (k + 1 = 2 * length (numbers st) + length (stack st))%nat;
  inv_stack : (1 ≤ length (stack st))%nat;
  inv_length : (length (sequence st) + k = 11)%nat;
  inv_perm : numbers_of (sequence st) ++ numbers st ≡ₚ numbersIn;
  inv_operators : Forall (λ op, op ∈ operatorSet) (operators_of (sequence st));
  inv_prefix : ∀ n, (1 ≤ n ≤ length (sequence st))%nat →
                    1 ≤ excess (take n (sequence st));
  inv_excess : excess (sequence st) = Z.of_nat (length (stack st));
  inv_replay : ∃ tops, replay (sequence st) [] = Ok (tops, stack st)
                       ∧ interimResults st = numbersIn ++ tops
}.

(** ** A deterministic generator for examples

    The state is a tape of natural numbers; every call takes the next one
    (0 when the tape is used up). [shuffle] and [sample] rotate the list by
    the number drawn, and [random.random() < 0.5] holds when it is 0. *)

Definition draw (g : list nat) : nat * list nat :=
  match g with
  | [] => (0%nat, [])
  | n :: g => (n, g)
  end.

Definition tape_shuffle (l : list Z) (g : list nat) : list Z * list nat :=
  let '(n, g) := draw g in (rotate n l, g).

Definition tape_lt_half (g : list nat) : bool * list nat :=
  let '(n, g) := draw g in (bool_decide (n = 0%nat), g).

Definition tape_sample (l : list string) (k : nat) (g : list nat)
    : list string * list nat :=
  let '(n, g) := draw g in (take k (rotate n l), g).

Definition tape_random : Random.
Proof.
  refine {| rng := list nat;
            random_shuffle := tape_shuffle;
            random_lt_half := tape_lt_half;
            random_sample := tape_sample |}.
  - intros l g. unfold tape_shuffle. destruct (draw g) as [n g']. simpl.
    unfold rotate. rewrite Permutation_app_comm. by rewrite take_drop.
  - intros l g. unfold tape_sample. destruct (draw g) as [n g']. simpl.
    rewrite take_ge by (by rewrite length_rotate).
    unfold rotate. rewrite Permutation_app_comm. by rewrite take_drop.
Defined.

(** ** Further vocabulary *)

(** [v] is what the operator [op] makes of [a] and [b] under the rules of
    the docstring of [rpnEvaluate]: no negative result, only even
    division. *)
Definition legal_result (op : string) (a b v : Z) : Prop :=
  (op = "+" ∧ v = a + b)
  ∨ (op = "-" ∧ v = a - b ∧ b ≤ a)
  ∨ (op = "*" ∧ v = a * b)
  ∨ (op = "/" ∧ b ≠ 0 ∧ a = v * b).

(** What is left to do in [generateRandomSequence]: [p] more elements
    make a complete expression of the numbers not yet used and the values
    on the stack. *)
Definition elements_to_go (p : nat) (st : locals) : Prop :=
  (p + 1 = 2 * length (numbers st) + length (stack st))%nat
  ∧ (1 ≤ length (stack st))%nat.

(** The numbers of an expression, from left to right. *)
Fixpoint leaves (e : expr) : list Z :=
  match e with
  | Num z => [z]
  | Bin _ l r => leaves l ++ leaves r
  end.

(** The two stacks of [formatSolution] are those of the expressions [es]:
    their values and their strings. *)
Definition stacks_of (es : list expr) (calcStack : list Z)
    (outputStack : list string) : Prop :=
  Forall2 (λ e v, value e = Some v) es calcStack
  ∧ outputStack = render <$> es.

(** The runs of numeric characters that start in [s], [inside] telling
    whether the character before [s] is numeric. *)
Fixpoint runs (inside : bool) (s : string) : nat :=
  match s with
  | EmptyString => 0
  | String c rest =>
      if isnumeric c then ((if inside then 0 else 1) + runs true rest)%nat
      else runs false rest
  end.

(** Whether the last character of [s] is numeric; [inside] for the empty
    string. *)
Fixpoint ends_numeric (inside : bool) (s : string) : bool :=
  match s with
  | EmptyString => inside
  | String c rest => ends_numeric (isnumeric c) rest
  end.

(** ** The main program after the arguments are read *)

(** What the main program can raise: an exception of the functions above,
    NameError for a variable that was never assigned, TypeError for
    unpacking [None]. *)
Inductive main_error : Type :=
  | Raised (e : exn)
  | NameError
  | TypeError.

(** What the program holds when it is through line 204. *)
Record report : Type := Report {
  shown_target : Z;                (* [args.target] *)
  shown_sequence : list element;   (* [sequence] *)
  formattedSolution : string;
  numbersUsed : nat
}.

(** Lines 200-204. [attempts] are the attempts of the loop, the last one
    first: [sequence] and [interimResults] are those of the last attempt,
    and unbound when there was none. *)
Definition main_after_loop (target : Z)
    (closestSolution : option (Z * list element))
    (attempts : list (list element * list Z)) : main_error + report :=
  match attempts with
  | [] => inl NameError
  | (sequence, interimResults) :: _ =>
      let chosen :=
        if bool_decide (target ∉ interimResults) then
          match closestSolution with
          | None => inl TypeError
          | Some (closest, sequence') => inr (closest, sequence')
          end
        else inr (target, sequence) in
      match chosen with
      | inl e => inl e
      | inr (target, sequence) =>
          match formatSolution sequence target true with
          | Raise e => inl (Raised e)
          | Ok (formattedSolution, numbersUsed) =>
              inr {| shown_target := target;
                     shown_sequence := sequence;
                     formattedSolution := formattedSolution;
                     numbersUsed := numbersUsed |}
          end
      end
  end.

Section Main.
Context `{Random}.

(** Lines 176-204: the search for the numbers and the target given, and
    the solution formatted. *)
Definition main_search (numbers : list Z) (target : Z) (clock : list bool)
    (g : rng) : main_error + report :=
  match search_loop clock numbers target None [] g with
  | Raise e => inl (Raised e)
  | Ok (closestSolution, attempts, _) =>
      main_after_loop target closestSolution attempts
  end.
End Main.

(** An attempt that the generator can return for [numbers]. *)
Definition generated (numbers : list Z) (attempt : list element * list Z)
    : Prop :=
  ∃ tops v,
    numbers_of attempt.1 ≡ₚ numbers
    ∧ replay attempt.1 [] = Ok (tops, [v])
    ∧ attempt.2 = numbers ++ tops.

(** The iterations that the clock allows: the outcomes [true] before the
    first [false]. *)
Fixpoint allowed (clock : list bool) : nat :=
  match clock with
  | true :: clock => S (allowed clock)
  | _ => 0
  end.

(** ** generateNumbers *)

(** [generateNumbers] calls [random.choice] and [random.sample] on lists
    of integers. Their contract: [choice] returns an element of a list that
    is not empty; [sample(population, k)] returns [k] elements chosen
    without replacement, and raises ValueError when [k] is negative or
    larger than the population. *)
Class RandomTiles `{Random} : Type := {
  random_choice : list Z → rng → Z * rng;
  random_sample_int : list Z → Z → rng → result (list Z) * rng;
  random_choice_elem : ∀ l g, l ≠ [] → (random_choice l g).1 ∈ l;
  random_sample_int_Ok : ∀ l k g,
    0 ≤ k ≤ Z.of_nat (length l) →
    ∃ s, (random_sample_int l k g).1 = Ok s
         ∧ Z.of_nat (length s) = k
         ∧ s ⊆+ l;
  random_sample_int_Raise : ∀ l k g,
    ¬ (0 ≤ k ≤ Z.of_nat (length l)) →
    (random_sample_int l k g).1 = Raise ValueError
}.

(** The large and the small tiles: [[25, 50, 75, 100]] and
    [list(range(1,11)) * 2]. *)
Definition bigs : list Z := [25; 50; 75; 100].
Definition littles : list Z := seqZ 1 10 ++ seqZ 1 10.

Section GenerateNumbers.
Context `{RandomTiles}.

(** Lines 16-30. [numBig] is [None] or an integer. *)
Definition generateNumbers (numBig : option Z) (g : rng)
    : result (list Z) * rng :=
  let '(numBig, g) :=
    match numBig with
    | None => random_choice [0; 1; 2; 3; 4] g
    | Some n => (n, g)
    end in
  match random_sample_int bigs numBig g with
  | (Raise e, g) => (Raise e, g)
  | (Ok big, g) =>
      match random_sample_int littles (6 - numBig) g with
      | (Raise e, g) => (Raise e, g)
      | (Ok little, g) => (Ok (big ++ little), g)
      end
  end.
End GenerateNumbers.

(** The tape for the tiles: [choice] takes the element at the number
    drawn (modulo the length), [sample] the first [k] elements of the list
    rotated by it. *)
Definition tape_choice (l : list Z) (g : list nat) : Z * list nat :=
  let '(n, g) := draw g in (default 0 (l !! (n `mod` length l)%nat), g).

Definition tape_sample_int (l : list Z) (k : Z) (g : list nat)
    : result (list Z) * list nat :=
  let '(n, g) := draw g in
  if decide (0 ≤ k ≤ Z.of_nat (length l))
  then (Ok (take (Z.to_nat k) (rotate n l)), g)
  else (Raise ValueError, g).

Definition tape_tiles : @RandomTiles tape_random.
Proof.
  refine {| random_choice := tape_choice : list Z → @rng tape_random → _;
            random_sample_int := tape_sample_int |}.
  - intros l g Hl. unfold tape_choice. destruct (draw g) as [n g']. simpl.
    assert (Hlt : (n `mod` length l < length l)%nat).
    { apply Nat.mod_upper_bound. by destruct l. }
    destruct (lookup_lt_is_Some_2 l _ Hlt) as [x Hx]. rewrite Hx. simpl.
    by eapply list_elem_of_lookup_2.
  - intros l k g Hk. unfold tape_sample_int. destruct (draw g) as [n g'].
    case_decide; [|done]. simpl. eexists. split; [done|]. split.
    + rewrite length_take, length_rotate. lia.
    + etrans; [apply sublist_submseteq, sublist_take|].
      apply Permutation_submseteq.
      unfold rotate. rewrite Permutation_app_comm. by rewrite take_drop.
  - intros l k g Hk. unfold tape_sample_int. destruct (draw g) as [n g'].
    by case_decide.
Defined.

(** The report for the numbers 25 8 3 1 1 6 and the target 44, which the
    first attempt with the tape 0 1 0 1 finds. *)
Definition report_44 : report :=
  {| shown_target := 44;
     shown_sequence := [PInt 6; PInt 1; PStr "+"; PInt 1; PStr "+"; PInt 3;
                        PInt 8; PInt 25; PStr "+"; PStr "+"; PStr "+"];
     formattedSolution := "(((25 + 8) + 3) + ((6 + 1) + 1)) = 44";
     numbersUsed := 6 |}.

(** * Properties *)

(** Case analysis on membership in an explicit list. *)
Ltac elem_cases H :=
  repeat (let E := fresh "E" in
          apply elem_of_cons in H as [E|H]; [try discriminate E; simplify_eq|]);
  try (by apply elem_of_nil in H).

(** ** Python list operations *)

Section PyListFacts.
Context {A : Type}.

Lemma index_neg_1_snoc (l : list A) x : index_neg 1 (l ++ [x]) = Some x.
Proof.
  unfold index_neg. rewrite length_app. simpl.
  case_decide; [|lia].
  rewrite lookup_app_r by lia.
  replace (length l + 1 - 1 - length l)%nat with 0%nat by lia. done.
Qed.

Lemma index_neg_2_snoc (l : list A) x y :
  index_neg 2 (l ++ [x; y]) = Some x.
Proof.
  unfold index_neg. rewrite length_app. simpl.
  case_decide; [|lia].
  rewrite lookup_app_r by lia.
  replace (length l + 2 - 2 - length l)%nat with 0%nat by lia. done.
Qed.

Lemma index_neg_1_last (l : list A) : index_neg 1 l = last l.
Proof.
  destruct l as [|a l] using rev_ind; [done|].
  by rewrite index_neg_1_snoc, last_snoc.
Qed.

Lemma index_neg_None (k : nat) (l : list A) :
  (length l < k)%nat → index_neg k l = None.
Proof. intros. unfold index_neg. case_decide; [lia|done]. Qed.

Lemma pop_nil : pop (@nil A) = None.
Proof. done. Qed.

Lemma pop_snoc (l : list A) x : pop (l ++ [x]) = Some (x, l).
Proof.
  unfold pop. rewrite last_snoc, length_app. simpl.
  replace (length l + 1 - 1)%nat with (length l) by lia.
  by rewrite take_app_length.
Qed.

Lemma pop_Some (l r : list A) x : pop l = Some (x, r) → l = r ++ [x].
Proof.
  destruct l as [|a l _] using rev_ind; [done|].
  rewrite pop_snoc. by intros [= -> ->].
Qed.

Lemma set_last_snoc (l : list A) x v : set_last v (l ++ [x]) = Some (l ++ [v]).
Proof.
  unfold set_last. destruct (l ++ [x]) eqn:E.
  - by destruct l.
  - rewrite <- E. f_equal. rewrite length_app. simpl.
    replace (length l + 1 - 1)%nat with (length l + 0)%nat by lia.
    by rewrite insert_app_r.
Qed.

(** A list with at least two elements ends in two elements. *)
Lemma snoc2_of_length (l : list A) :
  (2 ≤ length l)%nat → ∃ r a b, l = r ++ [a; b].
Proof.
  destruct l as [|b l _] using rev_ind; [simpl; lia|].
  destruct l as [|a l _] using rev_ind.
  - simpl; lia.
  - intros _. exists l, a, b. by rewrite <- app_assoc.
Qed.

Lemma snoc1_of_length (l : list A) :
  (1 ≤ length l)%nat → ∃ r a, l = r ++ [a].
Proof.
  destruct l as [|a l _] using rev_ind; [simpl; lia|]. eauto.
Qed.

Lemma index_neg_Some_length (k : nat) (l : list A) x :
  index_neg k l = Some x → (k ≤ length l)%nat.
Proof. unfold index_neg. case_decide; [lia|done]. Qed.

Lemma index_neg_1_is_Some (l : list A) :
  (1 ≤ length l)%nat → ∃ x, index_neg 1 l = Some x.
Proof.
  intros Hl. destruct (snoc1_of_length l Hl) as (r & x & ->).
  exists x. apply index_neg_1_snoc.
Qed.

Lemma snoc2_assoc (r : list A) a b : r ++ [a; b] = (r ++ [a]) ++ [b].
Proof. by rewrite <- app_assoc. Qed.
End PyListFacts.

(** ** The evaluator *)

Example rpnEvaluate_div_zero :
  rpnEvaluate (PStr "/") [10; 0] = (Raise ValueError, [10; 0]).
Proof. reflexivity. Qed.

Example rpnEvaluate_sub_neg :
  rpnEvaluate (PStr "-") [4; 6] = (Raise ValueError, [4; 6]).
Proof. reflexivity. Qed.

Example rpnEvaluate_sub_ok :
  rpnEvaluate (PStr "-") [6; 4] = (Ok (), [2]).
Proof. reflexivity. Qed.

Example rpnEvaluate_short_stack :
  rpnEvaluate (PStr "+") [7] = (Raise IndexError, [7]).
Proof. reflexivity. Qed.

Example rpnEvaluate_unknown :
  rpnEvaluate (PStr "^") [2; 3] = (Raise UnboundLocalError, [2]).
Proof. reflexivity. Qed.

(** Computing [result] reads the stack and does not change it. *)
Lemma rpn_result_stack (op : string) (stack : list Z) :
  (rpn_result op stack).2 = stack.
Proof.
  unfold rpn_result, bind, stack_index, ret, raise.
  repeat case_decide;
    repeat (match goal with
            | |- context [match index_neg ?k ?s with _ => _ end] =>
                destruct (index_neg k s)
            | |- context [if ?b then _ else _] => destruct b
            | |- context [let '(_, _) := ?p in _] => destruct p
            end; simpl); reflexivity.
Qed.

Lemma rpnEvaluate_operator (op : string) (r : list Z) (a b : Z) :
  rpnEvaluate (PStr op) (r ++ [a; b]) =
    match apply_operator op a b with
    | Some (Ok v) => (Ok (), r ++ [v])
    | Some (Raise e) => (Raise e, r ++ [a; b])
    | None => (Raise UnboundLocalError, r ++ [a])
    end.
Proof.
  assert (Hpop : pop (r ++ [a; b]) = Some (b, r ++ [a])).
  { replace (r ++ [a; b]) with ((r ++ [a]) ++ [b])
      by (by rewrite <- app_assoc).
    apply pop_snoc. }
  assert (Hi1 : index_neg 1 (r ++ [a; b]) = Some b).
  { replace (r ++ [a; b]) with ((r ++ [a]) ++ [b])
      by (by rewrite <- app_assoc).
    apply index_neg_1_snoc. }
  pose proof (index_neg_2_snoc r a b) as Hi2.
  unfold rpnEvaluate, rpn_result, apply_operator, bind, stack_index,
    stack_pop, stack_set_last, ret, raise.
  repeat case_decide; rewrite ?Hi2, ?Hi1; simpl.
  - by rewrite Hpop, set_last_snoc.
  - destruct (a - b <? 0); [done|]. by rewrite Hpop, set_last_snoc.
  - by rewrite Hpop, set_last_snoc.
  - destruct (b =? 0) eqn:Eb; [done|]. rewrite Hi2, Hi1.
    unfold Z.modulo, Z.div. destruct (Z.div_eucl a b) as [q m].
    destruct (m =? 0); simpl; [|done].
    by rewrite Hpop, set_last_snoc.
  - by rewrite Hpop.
Qed.

(** C1. With non-negative [a] (second from the top) and [b] (on top),
    [+] and [*] never fail, [-] fails if and only if [a < b], and [/]
    fails if and only if [b = 0] or [a] is not a multiple of [b]; the
    exception of a failing operator is ValueError (IllegalOperation). *)
Theorem rpnEvaluate_legality (rest : list Z) (a b : Z) :
  0 ≤ a → 0 ≤ b →
  ¬ fails (rpnEvaluate (PStr "+") (rest ++ [a; b]))
  ∧ ¬ fails (rpnEvaluate (PStr "*") (rest ++ [a; b]))
  ∧ (fails (rpnEvaluate (PStr "-") (rest ++ [a; b])) ↔ a < b)
  ∧ (fails (rpnEvaluate (PStr "/") (rest ++ [a; b]))
       ↔ b = 0 ∨ a `mod` b ≠ 0)
  ∧ (∀ op e, op ∈ operatorSet →
       raises (rpnEvaluate (PStr op) (rest ++ [a; b])) e → e = ValueError).
Proof.
  intros _ _. unfold fails, raises.
  repeat split.
  - rewrite rpnEvaluate_operator. simpl. by intros [e ?].
  - rewrite rpnEvaluate_operator. simpl. by intros [e ?].
  - rewrite rpnEvaluate_operator. unfold apply_operator. simpl.
    destruct (Z.ltb_spec (a - b) 0); [intros _; lia|]. by intros [e ?].
  - intros Hlt. rewrite rpnEvaluate_operator. unfold apply_operator. simpl.
    destruct (Z.ltb_spec (a - b) 0); [|lia]. by exists ValueError.
  - rewrite rpnEvaluate_operator. unfold apply_operator. simpl.
    destruct (Z.eqb_spec b 0) as [->|Hb]; [by left|].
    destruct (Z.eqb_spec (a `mod` b) 0) as [Hm|Hm]; simpl.
    + by intros [e ?].
    + by right.
  - intros Hor. rewrite rpnEvaluate_operator. unfold apply_operator. simpl.
    destruct (Z.eqb_spec b 0) as [->|Hb]; [by exists ValueError|].
    destruct (Z.eqb_spec (a `mod` b) 0) as [Hm|Hm]; simpl.
    + by destruct Hor.
    + by exists ValueError.
  - intros op e Hop. rewrite rpnEvaluate_operator.
    elem_cases Hop; unfold apply_operator; simpl.
    + done.
    + destruct (_ <? _); simpl; congruence.
    + done.
    + destruct (b =? 0); [|destruct (_ =? 0)]; simpl; congruence.
Qed.

Lemma rpnEvaluate_legality_witness :
  (0 ≤ 10 ∧ 0 ≤ 4)
  ∧ ¬ fails (rpnEvaluate (PStr "+") ([7] ++ [10; 4]))
  ∧ ¬ fails (rpnEvaluate (PStr "*") ([7] ++ [10; 4]))
  ∧ (fails (rpnEvaluate (PStr "-") ([7] ++ [10; 4])) ↔ 10 < 4)
  ∧ (fails (rpnEvaluate (PStr "/") ([7] ++ [10; 4]))
       ↔ 4 = 0 ∨ 10 `mod` 4 ≠ 0)
  ∧ (∀ op e, op ∈ operatorSet →
       raises (rpnEvaluate (PStr op) ([7] ++ [10; 4])) e → e = ValueError).
Proof.
  split; [lia|]. apply (rpnEvaluate_legality [7] 10 4); lia.
Defined.

(** C4. When the evaluator raises ValueError (IllegalOperation), the stack
    is left as it was before the call: ValueError comes from computing
    [result], before [stack.pop()] and the assignment to [stack[-1]]. *)
Theorem rpnEvaluate_failure_keeps_stack (el : element) (stack : list Z) :
  raises (rpnEvaluate el stack) ValueError →
  (rpnEvaluate el stack).2 = stack.
Proof.
  unfold raises. destruct el as [z|op]; [discriminate|].
  unfold rpnEvaluate, bind.
  pose proof (rpn_result_stack op stack) as Hst.
  destruct (rpn_result op stack) as [[res|e] s1]; simpl in Hst; subst s1;
    [|done].
  unfold stack_pop. destruct (pop stack) as [[v s2]|]; [|discriminate].
  destruct res as [v'|]; [|discriminate].
  unfold stack_set_last. destruct (set_last v' s2); discriminate.
Qed.

Lemma rpnEvaluate_failure_keeps_stack_witness :
  raises (rpnEvaluate (PStr "/") [3; 10; 4]) ValueError
  ∧ (rpnEvaluate (PStr "/") [3; 10; 4]).2 = [3; 10; 4].
Proof.
  split; [reflexivity|].
  apply (rpnEvaluate_failure_keeps_stack (PStr "/") [3; 10; 4]). reflexivity.
Defined.

(** ** Reading a sequence: one more element *)

Lemma numbers_of_snoc_number seq z :
  numbers_of (seq ++ [PInt z]) = numbers_of seq ++ [z].
Proof. unfold numbers_of. by rewrite omap_app. Qed.

Lemma numbers_of_snoc_operator seq op :
  numbers_of (seq ++ [PStr op]) = numbers_of seq.
Proof. unfold numbers_of. rewrite omap_app. simpl. by rewrite app_nil_r. Qed.

Lemma operators_of_snoc_number seq z :
  operators_of (seq ++ [PInt z]) = operators_of seq.
Proof. unfold operators_of. rewrite omap_app. simpl. by rewrite app_nil_r. Qed.

Lemma operators_of_snoc_operator seq op :
  operators_of (seq ++ [PStr op]) = operators_of seq ++ [op].
Proof. unfold operators_of. by rewrite omap_app. Qed.

Lemma length_numbers_operators seq :
  length seq = (length (numbers_of seq) + length (operators_of seq))%nat.
Proof.
  induction seq as [|[z|op] seq IH]; simpl; [done|..];
    unfold numbers_of, operators_of in *; simpl; lia.
Qed.

Lemma excess_snoc_number seq z : excess (seq ++ [PInt z]) = excess seq + 1.
Proof.
  unfold excess.
  rewrite numbers_of_snoc_number, operators_of_snoc_number, length_app.
  simpl. lia.
Qed.

Lemma excess_snoc_operator seq op : excess (seq ++ [PStr op]) = excess seq - 1.
Proof.
  unfold excess.
  rewrite numbers_of_snoc_operator, operators_of_snoc_operator, length_app.
  simpl. lia.
Qed.

(** The prefixes of [seq ++ [el]] are those of [seq] and the whole. *)
Lemma prefix_excess_snoc seq el :
  (∀ n, (1 ≤ n ≤ length seq)%nat → 1 ≤ excess (take n seq)) →
  1 ≤ excess (seq ++ [el]) →
  ∀ n, (1 ≤ n ≤ length (seq ++ [el]))%nat → 1 ≤ excess (take n (seq ++ [el])).
Proof.
  intros Hseq Hall n. rewrite length_app. simpl. intros Hn.
  destruct (decide (n ≤ length seq)%nat) as [Hle|Hgt].
  - rewrite take_app_le by done. apply Hseq. lia.
  - rewrite take_ge by (rewrite length_app; simpl; lia). done.
Qed.

Lemma replay_app seq1 seq2 stack tops1 stack1 tops2 stack2 :
  replay seq1 stack = Ok (tops1, stack1) →
  replay seq2 stack1 = Ok (tops2, stack2) →
  replay (seq1 ++ seq2) stack = Ok (tops1 ++ tops2, stack2).
Proof.
  revert stack tops1.
  induction seq1 as [|el seq1 IH]; intros stack tops1; simpl.
  - by intros [= <- <-].
  - destruct (rpnEvaluate el stack) as [[[]|e] stack']; [|done].
    destruct el as [z|op].
    + apply IH.
    + destruct (index_neg 1 stack') as [top|]; [|done].
      destruct (replay seq1 stack') as [[tops final]|e] eqn:E; [|done].
      intros [= <- <-] H2. by rewrite (IH _ _ E H2).
Qed.

Lemma replay_snoc_number seq stack tops stack1 z :
  replay seq stack = Ok (tops, stack1) →
  replay (seq ++ [PInt z]) stack = Ok (tops, stack1 ++ [z]).
Proof.
  intros H1. rewrite <- (app_nil_r tops). by eapply replay_app.
Qed.

Lemma replay_snoc_operator seq stack tops stack1 op stack2 top :
  replay seq stack = Ok (tops, stack1) →
  rpnEvaluate (PStr op) stack1 = (Ok (), stack2) →
  index_neg 1 stack2 = Some top →
  replay (seq ++ [PStr op]) stack = Ok (tops ++ [top], stack2).
Proof.
  intros H1 H2 H3. eapply replay_app; [done|].
  cbn [replay]. by rewrite H2, H3.
Qed.

(** ** The inner loop over the operators *)

Lemma apply_operator_set op a b :
  op ∈ operatorSet →
  (∃ v, apply_operator op a b = Some (Ok v))
  ∨ apply_operator op a b = Some (Raise ValueError) ∧ op ≠ "+".
Proof.
  intros Hop. elem_cases Hop; unfold apply_operator; simpl.
  - eauto.
  - destruct (_ <? _); eauto.
  - eauto.
  - destruct (b =? 0); [|destruct (_ =? 0)]; simpl; eauto.
Qed.

(** On a stack of two values or more, with [+] among the operators drawn,
    the loop is left by [break]: the operator it stops at was applied. *)
Lemma try_operators_break operators operator r a b :
  "+" ∈ operators →
  Forall (λ op, op ∈ operatorSet) operators →
  ∃ op v,
    op ∈ operators
    ∧ try_operators operators operator (r ++ [a; b])
        = (Ok Broke, Some op, r ++ [v])
    ∧ rpnEvaluate (PStr op) (r ++ [a; b]) = (Ok (), r ++ [v]).
Proof.
  revert operator.
  induction operators as [|op rest IH]; intros operator Hplus Hall.
  - by apply elem_of_nil in Hplus.
  - apply Forall_cons in Hall as [Hop Hrest].
    cbn [try_operators]. rewrite rpnEvaluate_operator.
    destruct (apply_operator_set op a b Hop) as [[v Hv]|[Hv Hne]]; rewrite Hv.
    + exists op, v. split_and!; [apply list_elem_of_here|done|].
      by rewrite rpnEvaluate_operator, Hv.
    + apply elem_of_cons in Hplus as [Heq|Hplus]; [congruence|].
      destruct (IH (Some op) Hplus Hrest) as (op' & v & Hin & Htry & Hev).
      exists op', v. split_and!; [by apply list_elem_of_further|done|done].
Qed.

(** ** The loop of generateRandomSequence *)

Section GeneratorFacts.
Context `{Random}.

Lemma sample_operators g :
  let operators := (random_sample operatorSet 4 g).1 in
  "+" ∈ operators ∧ Forall (λ op, op ∈ operatorSet) operators.
Proof.
  pose proof (random_sample_perm operatorSet g) as Hperm.
  change (length operatorSet) with 4%nat in Hperm.
  simpl. split.
  - rewrite Hperm. apply list_elem_of_here.
  - apply Forall_forall. intros op Hop. by rewrite <- Hperm.
Qed.

Lemma initial_locals_inv numbersIn g :
  length numbersIn = 6%nat →
  ∃ st g', initial_locals numbersIn g = Ok (st, g')
           ∧ gen_inv numbersIn 9 st.
Proof.
  intros Hlen. unfold initial_locals.
  pose proof (random_shuffle_perm numbersIn g) as Hperm.
  destruct (random_shuffle numbersIn g) as [shuffled g']. simpl in Hperm.
  assert (Hlen' : length shuffled = 6%nat) by by rewrite Hperm.
  destruct (snoc2_of_length shuffled) as (r & n2 & n1 & ->); [lia|].
  replace (r ++ [n2; n1]) with ((r ++ [n2]) ++ [n1])
    by (by rewrite <- app_assoc).
  rewrite pop_snoc, pop_snoc.
  eexists _, g'. split; [done|].
  rewrite length_app in Hlen'. simpl in Hlen'.
  split; simpl.
  - lia.
  - lia.
  - done.
  - rewrite <- Hperm.
    change (n1 :: n2 :: r) with ([n1; n2] ++ r).
    rewrite (Permutation_app_comm [n1; n2] r).
    apply Permutation_app_head, perm_swap.
  - apply Forall_nil_2.
  - intros n Hn. destruct n as [|[|[|n]]]; try lia; by vm_compute.
  - done.
  - exists []. split; [done|]. by rewrite app_nil_r.
Qed.

(** The branch taken fits the state: a number is left for [NextNumber],
    two values are on the stack for [NextOperator]. *)
Lemma choose_next_inv numbersIn k st g next g' :
  gen_inv numbersIn (S k) st →
  choose_next st g = (next, g') →
  match next with
  | NextNumber => (1 ≤ length (numbers st))%nat
  | NextOperator => (2 ≤ length (stack st))%nat
  end.
Proof.
  intros [Hcount Hstack _ _ _ _ _ _]. unfold choose_next.
  repeat case_decide.
  - intros [= <- <-]. lia.
  - intros [= <- <-]. lia.
  - destruct (random_lt_half g) as [[] g1]; intros [= <- <-]; lia.
Qed.

Lemma append_number_inv numbersIn k st g :
  gen_inv numbersIn (S k) st →
  (1 ≤ length (numbers st))%nat →
  ∃ st', append_next NextNumber st g = Ok (st', g)
         ∧ gen_inv numbersIn k st'.
Proof.
  intros [Hcount Hstack Hlen Hperm Hops Hprefix Hexcess Hreplay] Hn.
  destruct (snoc1_of_length _ Hn) as (r & x & Hnumbers).
  unfold append_next. rewrite Hnumbers, pop_snoc.
  eexists. split; [done|].
  rewrite Hnumbers, length_app in Hcount. simpl in Hcount.
  assert (Hexcess' : excess (sequence st ++ [PInt x])
                     = Z.of_nat (length (stack st ++ [x]))).
  { rewrite excess_snoc_number, Hexcess, length_app. simpl. lia. }
  split; simpl.
  - rewrite length_app. simpl. lia.
  - rewrite length_app. simpl. lia.
  - rewrite length_app. simpl. lia.
  - rewrite numbers_of_snoc_number, <- Hperm, Hnumbers, <- app_assoc.
    apply Permutation_app_head, Permutation_app_comm.
  - by rewrite operators_of_snoc_number.
  - apply prefix_excess_snoc; [done|].
    rewrite Hexcess', length_app. simpl. lia.
  - done.
  - destruct Hreplay as (tops & Hrep & Hint). exists tops.
    split; [|done]. by apply replay_snoc_number.
Qed.

Lemma append_operator_inv numbersIn k st g :
  gen_inv numbersIn (S k) st →
  (2 ≤ length (stack st))%nat →
  ∃ st' op stack',
    try_operators (random_sample operatorSet 4 g).1 (operator st) (stack st)
      = (Ok Broke, Some op, stack')
    ∧ append_next NextOperator st g
      = Ok (st', (random_sample operatorSet 4 g).2)
    ∧ gen_inv numbersIn k st'.
Proof.
  intros [Hcount Hstack Hlen Hperm Hops Hprefix Hexcess Hreplay] Hs.
  destruct (snoc2_of_length _ Hs) as (r & a & b & Hst).
  destruct (sample_operators g) as [Hplus Hall].
  unfold append_next.
  destruct (random_sample operatorSet 4 g) as [operators g']. simpl in *.
  rewrite Hst.
  destruct (try_operators_break operators (operator st) r a b Hplus Hall)
    as (op & v & Hin & Htry & Hev).
  rewrite Htry, index_neg_1_snoc.
  eexists _, op, _. split; [done|]. split; [done|].
  rewrite Hst, length_app in Hcount. simpl in Hcount.
  assert (Hexcess' : excess (sequence st ++ [PStr op])
                     = Z.of_nat (length (r ++ [v]))).
  { rewrite excess_snoc_operator, Hexcess, Hst, !length_app. simpl. lia. }
  split; simpl.
  - rewrite length_app. simpl. lia.
  - rewrite length_app. simpl. lia.
  - rewrite length_app. simpl. lia.
  - by rewrite numbers_of_snoc_operator.
  - rewrite operators_of_snoc_operator. apply Forall_app. split; [done|].
    apply Forall_singleton. rewrite Forall_forall in Hall. by apply Hall.
  - apply prefix_excess_snoc; [done|].
    rewrite Hexcess', length_app. simpl. lia.
  - done.
  - destruct Hreplay as (tops & Hrep & Hint). exists (tops ++ [v]).
    split; [|by rewrite Hint, app_assoc].
    eapply replay_snoc_operator; [done| |apply index_neg_1_snoc].
    by rewrite <- Hst in Hev.
Qed.

Lemma loop_body_inv numbersIn k st g :
  gen_inv numbersIn (S k) st →
  ∃ st' g', loop_body st g = Ok (st', g') ∧ gen_inv numbersIn k st'.
Proof.
  intros Hinv. unfold loop_body.
  destruct (choose_next st g) as [next g1] eqn:Hnext.
  pose proof (choose_next_inv _ _ _ _ _ _ Hinv Hnext) as Hfit.
  destruct next.
  - destruct (append_number_inv _ _ _ g1 Hinv Hfit) as (st' & ? & ?).
    by exists st', g1.
  - destruct (append_operator_inv _ _ _ g1 Hinv Hfit)
      as (st' & op & stack' & _ & ? & ?).
    by eexists st', _.
Qed.

Lemma for_range_inv numbersIn i k st g :
  gen_inv numbersIn (i + k) st →
  ∃ st' g', for_range i st g = Ok (st', g') ∧ gen_inv numbersIn k st'.
Proof.
  revert st g. induction i as [|i IH]; intros st g Hinv; simpl.
  - by exists st, g.
  - destruct (loop_body_inv _ _ _ g Hinv) as (st1 & g1 & -> & Hinv1).
    by apply IH.
Qed.

Lemma locals_after_inv numbersIn g i :
  length numbersIn = 6%nat →
  (i ≤ 9)%nat →
  ∃ st g', locals_after i numbersIn g = Ok (st, g')
           ∧ gen_inv numbersIn (9 - i) st.
Proof.
  intros Hlen Hi. unfold locals_after.
  destruct (initial_locals_inv numbersIn g Hlen) as (st0 & g0 & -> & Hinv).
  apply for_range_inv. by replace (i + (9 - i))%nat with 9%nat by lia.
Qed.
End GeneratorFacts.

(** ** generateRandomSequence *)

Section GeneratorTheorems.
Context `{Random}.

(** C2. For six non-negative numbers the generator returns 11 elements:
    6 numbers, which are a permutation of the input, and 5 operators
    (each one of [+ - * /]). *)
Theorem generateRandomSequence_shape (numbersIn : list Z) (g : rng) :
  length numbersIn = 6%nat →
  Forall (λ x, 0 ≤ x) numbersIn →
  ∃ seq interim g',
    generateRandomSequence numbersIn g = Ok (seq, interim, g')
    ∧ length seq = 11%nat
    ∧ length (numbers_of seq) = 6%nat
    ∧ numbers_of seq ≡ₚ numbersIn
    ∧ length (operators_of seq) = 5%nat
    ∧ Forall (λ op, op ∈ operatorSet) (operators_of seq).
Proof.
  intros Hlen _. unfold generateRandomSequence.
  destruct (locals_after_inv numbersIn g 9 Hlen) as (st & g' & -> & Hinv);
    [done|].
  destruct Hinv as [Hcount Hstack Hlength Hperm Hops _ _ _].
  simpl in *.
  assert (Hnum : numbers st = []) by (apply length_zero_iff_nil; lia).
  rewrite Hnum, app_nil_r in Hperm.
  assert (Hsix : length (numbers_of (sequence st)) = 6%nat)
    by by rewrite Hperm.
  pose proof (length_numbers_operators (sequence st)) as Hsplit.
  exists (sequence st), (interimResults st), g'.
  split_and!; [done|lia|done|done|lia|done].
Qed.

(** C3. For six non-negative numbers the generator returns (it raises
    no exception), and whenever one of its nine iterations adds an
    operator, the loop over the four operators drawn is left by [break]:
    the case that all four are illegal does not occur. *)
Theorem generateRandomSequence_never_exhausted (numbersIn : list Z) (g : rng) :
  length numbersIn = 6%nat →
  Forall (λ x, 0 ≤ x) numbersIn →
  (∃ r, generateRandomSequence numbersIn g = Ok r)
  ∧ ∀ i st gi g1,
      (i < 9)%nat →
      locals_after i numbersIn g = Ok (st, gi) →
      choose_next st gi = (NextOperator, g1) →
      ∃ op stack',
        try_operators (random_sample operatorSet 4 g1).1
          (operator st) (stack st) = (Ok Broke, Some op, stack').
Proof.
  intros Hlen _. split.
  - unfold generateRandomSequence.
    destruct (locals_after_inv numbersIn g 9 Hlen) as (st & g' & -> & _);
      [done|].
    by eexists.
  - intros i st gi g1 Hi Hst Hnext.
    destruct (locals_after_inv numbersIn g i Hlen) as (st' & g' & E & Hinv);
      [lia|].
    rewrite E in Hst. injection Hst as -> ->.
    replace (9 - i)%nat with (S (8 - i)) in Hinv by lia.
    pose proof (choose_next_inv _ _ _ _ _ _ Hinv Hnext) as Hfit.
    destruct (append_operator_inv _ _ _ g1 Hinv Hfit)
      as (_ & op & stack' & Htry & _).
    by exists op, stack'.
Qed.

(** C5, as amended. In every sequence returned for six non-negative
    numbers, every non-empty prefix has at least one operand more than
    it has operators, and the whole sequence has exactly one more. *)
Theorem generateRandomSequence_prefix_excess (numbersIn : list Z) (g : rng) :
  length numbersIn = 6%nat →
  Forall (λ x, 0 ≤ x) numbersIn →
  ∃ seq interim g',
    generateRandomSequence numbersIn g = Ok (seq, interim, g')
    ∧ (∀ n, (1 ≤ n ≤ length seq)%nat → 1 ≤ excess (take n seq))
    ∧ excess seq = 1.
Proof.
  intros Hlen _. unfold generateRandomSequence.
  destruct (locals_after_inv numbersIn g 9 Hlen) as (st & g' & -> & Hinv);
    [done|].
  destruct Hinv as [Hcount Hstack _ _ _ Hprefix Hexcess _]. simpl in *.
  exists (sequence st), (interimResults st), g'.
  split_and!; [done|done|]. rewrite Hexcess. lia.
Qed.

(** C6. Replaying a generated sequence from the empty stack succeeds,
    and the interim results returned with it are the six source numbers
    followed by the value on top of the stack after each operator. *)
Theorem generateRandomSequence_replay (numbersIn : list Z) (g : rng) :
  length numbersIn = 6%nat →
  Forall (λ x, 0 ≤ x) numbersIn →
  ∃ seq interim g' tops final,
    generateRandomSequence numbersIn g = Ok (seq, interim, g')
    ∧ replay seq [] = Ok (tops, final)
    ∧ interim = numbersIn ++ tops.
Proof.
  intros Hlen _. unfold generateRandomSequence.
  destruct (locals_after_inv numbersIn g 9 Hlen) as (st & g' & -> & Hinv);
    [done|].
  destruct Hinv as [_ _ _ _ _ _ _ (tops & Hrep & Hint)].
  by exists (sequence st), (interimResults st), g', tops, (stack st).
Qed.
End GeneratorTheorems.

(** The theorems at the numbers 25 8 3 1 1 6 and the tape 0 1 0 1. *)
Definition six_numbers : list Z := [25; 8; 3; 1; 1; 6].
Definition short_tape : list nat := [0; 1; 0; 1]%nat.

Lemma six_numbers_nonneg : Forall (λ x, 0 ≤ x) six_numbers.
Proof. repeat (constructor; [lia|]). constructor. Qed.

Lemma generateRandomSequence_shape_witness :
  (length six_numbers = 6%nat ∧ Forall (λ x, 0 ≤ x) six_numbers)
  ∧ ∃ seq interim g',
      @generateRandomSequence tape_random six_numbers short_tape
        = Ok (seq, interim, g')
      ∧ length seq = 11%nat
      ∧ length (numbers_of seq) = 6%nat
      ∧ numbers_of seq ≡ₚ six_numbers
      ∧ length (operators_of seq) = 5%nat
      ∧ Forall (λ op, op ∈ operatorSet) (operators_of seq).
Proof.
  split; [split; [reflexivity|apply six_numbers_nonneg]|].
  apply (@generateRandomSequence_shape tape_random);
    [reflexivity|apply six_numbers_nonneg].
Defined.

Lemma generateRandomSequence_never_exhausted_witness :
  (length six_numbers = 6%nat ∧ Forall (λ x, 0 ≤ x) six_numbers)
  ∧ (∃ r, @generateRandomSequence tape_random six_numbers short_tape = Ok r)
  ∧ ∀ i st gi g1,
      (i < 9)%nat →
      @locals_after tape_random i six_numbers short_tape = Ok (st, gi) →
      @choose_next tape_random st gi = (NextOperator, g1) →
      ∃ op stack',
        try_operators (tape_sample operatorSet 4 g1).1
          (operator st) (stack st) = (Ok Broke, Some op, stack').
Proof.
  split; [split; [reflexivity|apply six_numbers_nonneg]|].
  apply (@generateRandomSequence_never_exhausted tape_random);
    [reflexivity|apply six_numbers_nonneg].
Defined.

Lemma generateRandomSequence_prefix_excess_witness :
  (length six_numbers = 6%nat ∧ Forall (λ x, 0 ≤ x) six_numbers)
  ∧ ∃ seq interim g',
      @generateRandomSequence tape_random six_numbers short_tape
        = Ok (seq, interim, g')
      ∧ (∀ n, (1 ≤ n ≤ length seq)%nat → 1 ≤ excess (take n seq))
      ∧ excess seq = 1.
Proof.
  split; [split; [reflexivity|apply six_numbers_nonneg]|].
  apply (@generateRandomSequence_prefix_excess tape_random);
    [reflexivity|apply six_numbers_nonneg].
Defined.

Lemma generateRandomSequence_replay_witness :
  (length six_numbers = 6%nat ∧ Forall (λ x, 0 ≤ x) six_numbers)
  ∧ ∃ seq interim g' tops final,
      @generateRandomSequence tape_random six_numbers short_tape
        = Ok (seq, interim, g')
      ∧ replay seq [] = Ok (tops, final)
      ∧ interim = six_numbers ++ tops.
Proof.
  split; [split; [reflexivity|apply six_numbers_nonneg]|].
  apply (@generateRandomSequence_replay tape_random);
    [reflexivity|apply six_numbers_nonneg].
Defined.

Example generateRandomSequence_short_tape :
  @generateRandomSequence tape_random six_numbers short_tape
  = Ok ([PInt 6; PInt 1; PStr "+"; PInt 1; PStr "+"; PInt 3; PInt 8;
         PInt 25; PStr "+"; PStr "+"; PStr "+"],
        [25; 8; 3; 1; 1; 6; 7; 8; 33; 36; 44], []).
Proof. vm_compute. reflexivity. Qed.

(** A run of the generator: 6 and 1 are added, so the prefix [6 1 +] has
    one operand more than operators, and it is not the whole sequence. *)
Example generateRandomSequence_run :
  @generateRandomSequence tape_random [25; 8; 3; 1; 1; 6]
    [0; 1; 0; 1; 2; 3; 1]%nat
  = Ok ([PInt 6; PInt 1; PStr "+"; PInt 1; PStr "*"; PInt 3; PStr "-";
         PInt 8; PInt 25; PStr "+"; PStr "+"],
        [25; 8; 3; 1; 1; 6; 7; 7; 4; 33; 37], []).
Proof. vm_compute. reflexivity. Qed.

(** C5 as stated fails: a returned sequence has a proper prefix whose
    excess is exactly 1. *)
Lemma excess_one_before_the_end :
  ∃ seq interim g',
    @generateRandomSequence tape_random [25; 8; 3; 1; 1; 6]
      [0; 1; 0; 1; 2; 3; 1]%nat = Ok (seq, interim, g')
    ∧ ¬ excess_one_only_at_end seq.
Proof.
  eexists _, _, _. split; [apply generateRandomSequence_run|].
  intros Honly_end.
  destruct (Honly_end 3%nat) as [_ [Honly _]]; [simpl; lia|].
  specialize (Honly eq_refl). discriminate Honly.
Qed.

(** ** formatSolution *)

Example str_values : (str 0, str 7, str 305, str (-12)) = ("0", "7", "305", "-12").
Proof. reflexivity. Qed.

Example split_spaces : split " " " 25  8 " = [""; "25"; ""; "8"; ""].
Proof. reflexivity. Qed.

Example count_numbers_nested : count_numbers "((25 * 8) + 10)" = 3%nat.
Proof. reflexivity. Qed.

(** The loop is left by [break] only after an operator was applied and
    left the target on top of the stack. *)
Lemma format_element_Stop target ign el calcStack outputStack calc' out' :
  format_element target ign el calcStack outputStack = Ok (Stop, calc', out') →
  ∃ op, el = PStr op
        ∧ rpnEvaluate el calcStack = (Ok (), calc')
        ∧ index_neg 1 calc' = Some target.
Proof.
  unfold format_element.
  destruct (ignores ign calcStack el).
  { destruct (pop calcStack) as [[? ?]|]; [|done].
    destruct (pop outputStack) as [[? ?]|]; done. }
  destruct (rpnEvaluate el calcStack) as [[[]|e] calc1]; [|done].
  destruct el as [z|op]; [done|].
  destruct (index_neg 2 outputStack); [|done].
  destruct (index_neg 1 outputStack); [|done].
  destruct (pop outputStack) as [[? out1]|]; [|done].
  destruct (set_last _ out1); [|done].
  destruct (index_neg 1 calc1) as [top|] eqn:Etop; [|done].
  destruct (Z.eqb_spec top target) as [->|]; [|done].
  intros [= <- <-]. by exists op.
Qed.

Lemma ignores_false calcStack el : ignores false calcStack el = false.
Proof. done. Qed.

Lemma ignores_number ign calcStack z : ignores ign calcStack (PInt z) = false.
Proof.
  unfold ignores. rewrite (bool_decide_eq_false_2 (PInt z ∈ _)).
  - apply andb_false_r.
  - intros Hin. elem_cases Hin.
Qed.

Lemma ignores_true_inv r a b op :
  ignores true (r ++ [a; b]) (PStr op) = true →
  b = 1 ∧ (op = "*" ∨ op = "/").
Proof.
  unfold ignores. rewrite snoc2_assoc, index_neg_1_snoc.
  rewrite !andb_true_iff. intros [[_ Hb] Hop].
  apply Z.eqb_eq in Hb. apply bool_decide_eq_true in Hop.
  split; [done|]. elem_cases Hop; auto.
Qed.

(** Multiplying or dividing by the 1 on top gives the value below it. *)
Lemma apply_operator_one op a v :
  op = "*" ∨ op = "/" →
  apply_operator op a 1 = Some (Ok v) → v = a.
Proof.
  intros [-> | ->]; unfold apply_operator; simpl.
  - intros [= <-]. lia.
  - rewrite Z.mod_1_r, Z.div_1_r. simpl. by intros [= <-].
Qed.

(** The branch that applies an operator, on stacks of two or more. *)
Lemma format_element_apply target ign r a b op v ro x y :
  ignores ign (r ++ [a; b]) (PStr op) = false →
  apply_operator op a b = Some (Ok v) →
  format_element target ign (PStr op) (r ++ [a; b]) (ro ++ [x; y])
  = Ok (if v =? target then Stop else Next,
        r ++ [v], ro ++ [infix_result op x y]).
Proof.
  intros Hign Hop. unfold format_element.
  rewrite Hign, rpnEvaluate_operator, Hop.
  rewrite index_neg_2_snoc. rewrite (snoc2_assoc ro).
  by rewrite index_neg_1_snoc, pop_snoc, set_last_snoc, index_neg_1_snoc.
Qed.

(** The branch that ignores a multiplication or division by 1. *)
Lemma format_element_skip target r a b op ro x y :
  ignores true (r ++ [a; b]) (PStr op) = true →
  format_element target true (PStr op) (r ++ [a; b]) (ro ++ [x; y])
  = Ok (Next, r ++ [a], ro ++ [x]).
Proof.
  intros Hign. unfold format_element.
  by rewrite Hign, !snoc2_assoc, !pop_snoc.
Qed.

(** ** The strings of [outputStack] and the numbers of [calcStack] *)

Lemma apply_operator_comm op a b :
  PStr op ∈ [PStr "+"; PStr "*"] →
  apply_operator op b a = apply_operator op a b.
Proof.
  intros Hop. elem_cases Hop; unfold apply_operator; simpl; do 2 f_equal; lia.
Qed.

Lemma stacks_agree_app_inv c1 c2 o1 o2 :
  length c2 = length o2 →
  stacks_agree (c1 ++ c2) (o1 ++ o2) →
  stacks_agree c1 o1 ∧ stacks_agree c2 o2.
Proof.
  intros Hlen Hagree. apply Forall2_app_inv; [|done].
  apply Forall2_length in Hagree. rewrite !length_app in Hagree. lia.
Qed.

Lemma infix_result_expr op a b v ea eb :
  apply_operator op a b = Some (Ok v) →
  value ea = Some a → value eb = Some b →
  ∃ e, render e = infix_result op (render ea) (render eb) ∧ value e = Some v.
Proof.
  intros Hop Ha Hb. unfold infix_result.
  case_bool_decide as Hcomm; simpl.
  - destruct (_ <? _)%nat.
    + exists (Bin op eb ea). simpl.
      by rewrite Ha, Hb, (apply_operator_comm op a b Hcomm), Hop.
    + exists (Bin op ea eb). simpl. by rewrite Ha, Hb, Hop.
  - exists (Bin op ea eb). simpl. by rewrite Ha, Hb, Hop.
Qed.

Lemma format_element_agree target ign el calcStack outputStack flow calc' out' :
  stacks_agree calcStack outputStack →
  format_element target ign el calcStack outputStack = Ok (flow, calc', out') →
  stacks_agree calc' out'.
Proof.
  intros Hagree Hstep.
  pose proof (Forall2_length _ _ _ Hagree) as Hlen.
  destruct (ignores ign calcStack el) eqn:Hign.
  - unfold format_element in Hstep. rewrite Hign in Hstep.
    destruct (pop calcStack) as [[v c1]|] eqn:Hc; [|done].
    destruct (pop outputStack) as [[s o1]|] eqn:Ho; [|done].
    injection Hstep as <- <- <-.
    apply pop_Some in Hc as ->. apply pop_Some in Ho as ->.
    by apply stacks_agree_app_inv in Hagree as [? _].
  - destruct el as [z|op].
    + unfold format_element in Hstep. rewrite Hign in Hstep. simpl in Hstep.
      injection Hstep as <- <- <-.
      apply Forall2_app; [done|]. apply Forall2_cons. split; [|done].
      by exists (Num z).
    + destruct (decide (2 ≤ length outputStack)%nat) as [Hlen2|Hlen2].
      2:{ unfold format_element in Hstep. rewrite Hign in Hstep.
          destruct (rpnEvaluate (PStr op) calcStack) as [[[]|e] calc1];
            [|done].
          by rewrite (index_neg_None 2 outputStack) in Hstep by lia. }
      destruct (snoc2_of_length outputStack Hlen2) as (ro & x & y & ->).
      destruct (snoc2_of_length calcStack) as (r & a & b & ->); [lia|].
      apply stacks_agree_app_inv in Hagree as [Hrest Htop]; [|done].
      apply Forall2_cons in Htop as [(ea & <- & Ha) Htop].
      apply Forall2_cons in Htop as [(eb & <- & Hb) _].
      destruct (apply_operator op a b) as [[v|e]|] eqn:Hop.
      2,3: unfold format_element in Hstep;
           by rewrite Hign, rpnEvaluate_operator, Hop in Hstep.
      rewrite (format_element_apply target ign r a b op v ro _ _ Hign Hop)
        in Hstep.
      injection Hstep as <- <- <-.
      apply Forall2_app; [done|]. apply Forall2_cons. split; [|done].
      by eapply infix_result_expr.
Qed.

Lemma format_loop_agree target ign seq calcStack outputStack calcE outE :
  stacks_agree calcStack outputStack →
  format_loop target ign seq calcStack outputStack = Ok (calcE, outE) →
  stacks_agree calcE outE.
Proof.
  revert calcStack outputStack.
  induction seq as [|el seq IH]; intros calcStack outputStack Hagree; simpl.
  - by intros [= <- <-].
  - destruct (format_element target ign el calcStack outputStack)
      as [[[flow calc1] out1]|e] eqn:Hstep; [|done].
    pose proof (format_element_agree _ _ _ _ _ _ _ _ Hagree Hstep) as Hagree1.
    destruct flow.
    + by apply IH.
    + by intros [= <- <-].
Qed.

(** When [formatSolution] returns, the string before [" = "] is an
    expression, and [final_value] is the value of that expression. *)
Lemma formatSolution_expression seq target ign output n :
  formatSolution seq target ign = Ok (output, n) →
  ∃ e v,
    output = render e +:+ " = " +:+ str target
    ∧ value e = Some v
    ∧ final_value seq target ign = Ok v.
Proof.
  unfold formatSolution, final_value.
  destruct (format_loop target ign seq [] []) as [[calcE outE]|e] eqn:Hloop;
    [|done].
  assert (Hagree : stacks_agree calcE outE).
  { eapply format_loop_agree; [|exact Hloop]. constructor. }
  destruct (index_neg 1 outE) as [expression|] eqn:Hexpr; [|done].
  intros [= <- _].
  rewrite index_neg_1_last in Hexpr.
  destruct outE as [|s outE _] using rev_ind; [done|].
  rewrite last_snoc in Hexpr. injection Hexpr as ->.
  destruct (snoc1_of_length calcE) as (r & v & ->).
  { apply Forall2_length in Hagree. rewrite length_app in Hagree.
    simpl in Hagree. lia. }
  apply stacks_agree_app_inv in Hagree as [_ Htop]; [|done].
  apply Forall2_cons in Htop as [(e & <- & Hv) _].
  exists e, v. by rewrite index_neg_1_snoc.
Qed.

(** C8. [formatSolution([5, 5, '+'], 10)], with the default
    [ignoreMultiplyByOne=True], returns ["(5 + 5) = 10"] and counts 2
    numbers. *)
Theorem formatSolution_five_plus_five :
  formatSolution [PInt 5; PInt 5; PStr "+"] 10 true = Ok ("(5 + 5) = 10", 2%nat).
Proof. vm_compute. reflexivity. Qed.

(** C10. When [formatSolution] returns, the string is an expression
    followed by [" = "] and the target passed in. The target is not
    compared with the value of the expression: the loop stops early only
    after an operator leaves the target on top of the stack, and
    ["(5 + 3) = 7"] is returned for an expression whose value is 8. *)
Theorem formatSolution_target_unchecked :
  (∀ seq target ign output n,
     formatSolution seq target ign = Ok (output, n) →
     ∃ e v, output = render e +:+ " = " +:+ str target
            ∧ value e = Some v
            ∧ final_value seq target ign = Ok v)
  ∧ (∀ target ign el calcStack outputStack calc' out',
       format_element target ign el calcStack outputStack
         = Ok (Stop, calc', out') →
       ∃ op, el = PStr op
             ∧ rpnEvaluate el calcStack = (Ok (), calc')
             ∧ index_neg 1 calc' = Some target)
  ∧ (formatSolution [PInt 5; PInt 3; PStr "+"] 7 true
       = Ok ("(5 + 3) = 7", 2%nat)
     ∧ render (Bin "+" (Num 5) (Num 3)) = "(5 + 3)"
     ∧ value (Bin "+" (Num 5) (Num 3)) = Some 8
     ∧ final_value [PInt 5; PInt 3; PStr "+"] 7 true = Ok 8).
Proof.
  split_and!.
  - apply formatSolution_expression.
  - apply format_element_Stop.
  - by vm_compute.
  - by vm_compute.
  - by vm_compute.
  - by vm_compute.
Qed.

Lemma formatSolution_target_unchecked_witness :
  ∃ e v,
    "((25 * 8) + 3) = 999" = render e +:+ " = " +:+ str 999
    ∧ value e = Some v
    ∧ final_value [PInt 25; PInt 8; PStr "*"; PInt 3; PStr "+"] 999 true
      = Ok v.
Proof.
  destruct formatSolution_target_unchecked as [Hsuffix _].
  apply (Hsuffix [PInt 25; PInt 8; PStr "*"; PInt 3; PStr "+"] 999 true
           "((25 * 8) + 3) = 999" 3%nat).
  vm_compute. reflexivity.
Defined.

(** ** formatSolution with and without ignoreMultiplyByOne *)

Lemma format_element_sim target el calcStack outF outT flow calc' outF' :
  (∀ z, el = PInt z → z ≠ target) →
  length outF = length calcStack →
  length outT = length calcStack →
  Forall (λ v, v ≠ target) calcStack →
  format_element target false el calcStack outF = Ok (flow, calc', outF') →
  ∃ outT',
    format_element target true el calcStack outT = Ok (flow, calc', outT')
    ∧ length outF' = length calc'
    ∧ length outT' = length calc'
    ∧ (flow = Next → Forall (λ v, v ≠ target) calc').
Proof.
  intros Hnum HlenF HlenT Hall Hstep.
  destruct el as [z|op].
  - unfold format_element in *.
    rewrite ignores_number in *. simpl in *.
    injection Hstep as <- <- <-.
    exists (outT ++ [str z]). rewrite !length_app. simpl.
    split_and!; [done|lia|lia|].
    intros _. apply Forall_app. split; [done|].
    apply Forall_singleton. by apply Hnum.
  - destruct (decide (2 ≤ length calcStack)%nat) as [Hlen|Hlen].
    2:{ unfold format_element in Hstep. rewrite ignores_false in Hstep.
        destruct (rpnEvaluate (PStr op) calcStack) as [[[]|e] calc1];
          [|done].
        by rewrite (index_neg_None 2 outF) in Hstep by lia. }
    destruct (snoc2_of_length calcStack Hlen) as (r & a & b & ->).
    destruct (snoc2_of_length outF) as (ro & x & y & ->); [lia|].
    destruct (snoc2_of_length outT) as (rt & xt & yt & ->); [lia|].
    rewrite !length_app in *. simpl in *.
    destruct (apply_operator op a b) as [[v|e]|] eqn:Hop.
    2,3: unfold format_element in Hstep;
         by rewrite ignores_false, rpnEvaluate_operator, Hop in Hstep.
    rewrite (format_element_apply target false r a b op v ro x y
               (ignores_false _ _) Hop) in Hstep.
    injection Hstep as <- <- <-.
    apply Forall_app in Hall as [Hr Hab].
    apply Forall_cons in Hab as [Ha _].
    destruct (ignores true (r ++ [a; b]) (PStr op)) eqn:Hign.
    + destruct (ignores_true_inv _ _ _ _ Hign) as [-> Hmul].
      apply (apply_operator_one _ _ _ Hmul) in Hop as ->.
      rewrite (format_element_skip target r a 1 op rt xt yt Hign).
      destruct (Z.eqb_spec a target) as [|_]; [done|].
      exists (rt ++ [xt]). rewrite !length_app. simpl.
      split_and!; [done|lia|lia|].
      intros _. apply Forall_app. split; [done|]. by apply Forall_singleton.
    + rewrite (format_element_apply target true r a b op v rt xt yt Hign Hop).
      eexists. split; [done|]. rewrite !length_app. simpl.
      split_and!; [lia|lia|].
      destruct (Z.eqb_spec v target) as [|Hv]; [done|].
      intros _. apply Forall_app. split; [done|]. by apply Forall_singleton.
Qed.

Lemma format_loop_sim target seq calcStack outF outT calcE outFE :
  target ∉ numbers_of seq →
  length outF = length calcStack →
  length outT = length calcStack →
  Forall (λ v, v ≠ target) calcStack →
  format_loop target false seq calcStack outF = Ok (calcE, outFE) →
  ∃ outTE,
    format_loop target true seq calcStack outT = Ok (calcE, outTE)
    ∧ length outFE = length calcE
    ∧ length outTE = length calcE.
Proof.
  revert calcStack outF outT.
  induction seq as [|el seq IH]; intros calcStack outF outT Hnot HlenF HlenT Hall.
  - simpl. intros [= <- <-]. by exists outT.
  - cbn [format_loop].
    destruct (format_element target false el calcStack outF)
      as [[[flow calc1] outF1]|e] eqn:Hstep; [|done].
    assert (Hnum : ∀ z, el = PInt z → z ≠ target).
    { intros z -> ->. apply Hnot. apply list_elem_of_here. }
    assert (Hrest : target ∉ numbers_of seq).
    { intros Hin. apply Hnot. destruct el; [|done].
      by apply list_elem_of_further. }
    destruct (format_element_sim _ _ _ _ outT _ _ _ Hnum HlenF HlenT Hall Hstep)
      as (outT1 & -> & HlenF1 & HlenT1 & Hall1).
    destruct flow.
    + by apply IH; [..|apply Hall1].
    + intros [= <- <-]. by exists outT1.
Qed.

(** An operator is applied only to a stack of two values or more. *)
Lemma rpnEvaluate_operator_length op calcStack calc' :
  rpnEvaluate (PStr op) calcStack = (Ok (), calc') →
  (2 ≤ length calcStack)%nat.
Proof.
  intros Hev.
  destruct calcStack as [|a [|b l]]; [exfalso..|simpl; lia];
    revert Hev; unfold rpnEvaluate, rpn_result, bind, stack_index, ret, raise;
    repeat case_decide; simpl; try done.
  all: by destruct (a =? 0).
Qed.

(** On a sequence that replays without a failure, [formatSolution] does
    not fail in its loop, and its two stacks have the same length. *)
Lemma format_loop_valid target seq calcStack outputStack tops final :
  replay seq calcStack = Ok (tops, final) →
  length outputStack = length calcStack →
  ∃ calcE outE,
    format_loop target false seq calcStack outputStack = Ok (calcE, outE)
    ∧ length outE = length calcE
    ∧ (final ≠ [] → calcE ≠ []).
Proof.
  revert calcStack outputStack tops.
  induction seq as [|el seq IH]; intros calcStack outputStack tops; simpl.
  - intros [= <- <-] Hlen. by exists calcStack, outputStack.
  - destruct (rpnEvaluate el calcStack) as [[[]|e] calc1] eqn:Hev; [|done].
    destruct el as [z|op].
    + intros Hrep Hlen. unfold format_element.
      rewrite ignores_number, Hev.
      eapply IH; [done|]. simpl in Hev. injection Hev as <-.
      rewrite !length_app. simpl. lia.
    + destruct (index_neg 1 calc1) as [top|]; [|done].
      destruct (replay seq calc1) as [[tops1 final1]|e] eqn:Hrep; [|done].
      intros [= <- <-] Hlen.
      pose proof (rpnEvaluate_operator_length _ _ _ Hev) as Hlen2.
      destruct (snoc2_of_length calcStack Hlen2) as (r & a & b & ->).
      destruct (snoc2_of_length outputStack) as (ro & x & y & ->); [lia|].
      rewrite rpnEvaluate_operator in Hev.
      destruct (apply_operator op a b) as [[v|e]|] eqn:Hop; [|done..].
      injection Hev as <-.
      rewrite (format_element_apply target false r a b op v ro x y
                 (ignores_false _ _) Hop).
      rewrite !length_app in Hlen. simpl in Hlen.
      destruct (v =? target).
      * eexists (r ++ [v]), _. split; [done|]. rewrite !length_app. simpl.
        split; [lia|]. intros _. by destruct r.
      * eapply IH; [done|]. rewrite !length_app. simpl. lia.
Qed.

(** So [formatSolution] returns on every valid postfix sequence: one that
    replays from the empty stack without a failure and leaves a value. *)
Lemma formatSolution_valid_returns seq target tops final :
  replay seq [] = Ok (tops, final) →
  final ≠ [] →
  ∃ output n, formatSolution seq target false = Ok (output, n).
Proof.
  intros Hrep Hfinal. unfold formatSolution.
  destruct (format_loop_valid target seq [] [] tops final Hrep)
    as (calcE & outE & -> & Hlen & Hne); [done|].
  destruct (index_neg_1_is_Some outE) as [expression ->]; [|by eexists _, _].
  specialize (Hne Hfinal). rewrite Hlen. destruct calcE; [done|simpl; lia].
Qed.

(** C7, as amended. If no number of the sequence is the target and
    [formatSolution] returns with [ignoreMultiplyByOne=False], then it
    returns with [ignoreMultiplyByOne=True] as well, and the expressions of
    the two strings returned have the same value, the final value of both
    runs. *)
Theorem formatSolution_simplification_value seq target outF nF :
  target ∉ numbers_of seq →
  formatSolution seq target false = Ok (outF, nF) →
  ∃ outT nT eF eT v,
    formatSolution seq target true = Ok (outT, nT)
    ∧ outF = render eF +:+ " = " +:+ str target
    ∧ outT = render eT +:+ " = " +:+ str target
    ∧ value eF = Some v
    ∧ value eT = Some v
    ∧ final_value seq target false = Ok v
    ∧ final_value seq target true = Ok v.
Proof.
  intros Hnot HF.
  assert (HT : ∃ outT nT, formatSolution seq target true = Ok (outT, nT)
                          ∧ final_value seq target true
                            = final_value seq target false).
  { revert HF. unfold formatSolution, final_value.
    destruct (format_loop target false seq [] [])
      as [[calcE outFE]|e] eqn:Hloop; [|done].
    destruct (format_loop_sim target seq [] [] [] calcE outFE Hnot)
      as (outTE & -> & HlenF & HlenT); [done..|].
    destruct (index_neg 1 outFE) as [exprF|] eqn:HexprF; [|done].
    intros _.
    apply index_neg_Some_length in HexprF.
    destruct (index_neg_1_is_Some outTE) as [exprT ->]; [lia|].
    by eexists _, _. }
  destruct HT as (outT & nT & HT & Hsame).
  destruct (formatSolution_expression _ _ _ _ _ HF) as (eF & v & -> & HvF & HfF).
  destruct (formatSolution_expression _ _ _ _ _ HT) as (eT & v' & -> & HvT & HfT).
  rewrite Hsame, HfF in HfT. injection HfT as <-.
  exists (render eT +:+ " = " +:+ str target), nT, eF, eT, v.
  by rewrite Hsame.
Qed.

Lemma formatSolution_simplification_value_witness :
  let seq := [PInt 25; PInt 8; PStr "*"; PInt 1; PStr "*"; PInt 3; PStr "+"] in
  ((203 ∉ numbers_of seq)
   ∧ formatSolution seq 203 false = Ok ("(((25 * 8) * 1) + 3) = 203", 4%nat))
  ∧ ∃ outT nT eF eT v,
      formatSolution seq 203 true = Ok (outT, nT)
      ∧ "(((25 * 8) * 1) + 3) = 203" = render eF +:+ " = " +:+ str 203
      ∧ outT = render eT +:+ " = " +:+ str 203
      ∧ value eF = Some v
      ∧ value eT = Some v
      ∧ final_value seq 203 false = Ok v
      ∧ final_value seq 203 true = Ok v.
Proof.
  assert (Hnot : 203 ∉ numbers_of [PInt 25; PInt 8; PStr "*"; PInt 1;
                                    PStr "*"; PInt 3; PStr "+"]).
  { intros Hin. elem_cases Hin. }
  split; [split; [exact Hnot|reflexivity]|].
  apply (formatSolution_simplification_value _ 203 _ 4%nat);
    [exact Hnot|reflexivity].
Defined.

Example formatSolution_simplified :
  formatSolution [PInt 25; PInt 8; PStr "*"; PInt 1; PStr "*"; PInt 3;
                  PStr "+"] 203 true = Ok ("((25 * 8) + 3) = 203", 3%nat).
Proof. vm_compute. reflexivity. Qed.

(** A sequence the generator returns for the numbers 6 4 2 3 1 100. *)
Example generateRandomSequence_run_100 :
  @generateRandomSequence tape_random [6; 4; 2; 3; 1; 100]
    [0; 1; 2; 1; 0; 1; 0; 1; 0; 0]%nat
  = Ok ([PInt 100; PInt 1; PStr "*"; PInt 3; PStr "+"; PInt 2; PStr "+";
         PInt 4; PStr "+"; PInt 6; PStr "+"],
        [6; 4; 2; 3; 1; 100; 100; 103; 105; 109; 115], []).
Proof. vm_compute. reflexivity. Qed.

(** C7 as stated fails: with the target 100 among the numbers, [100 1 *]
    stops the loop when the multiplication is applied and does not when it
    is ignored. *)
Lemma same_final_value_fails :
  let seq := [PInt 100; PInt 1; PStr "*"; PInt 3; PStr "+"; PInt 2; PStr "+";
              PInt 4; PStr "+"; PInt 6; PStr "+"] in
  formatSolution seq 100 true = Ok ("((((100 + 3) + 2) + 4) + 6) = 100", 5%nat)
  ∧ formatSolution seq 100 false = Ok ("(100 * 1) = 100", 2%nat)
  ∧ final_value seq 100 true = Ok 115
  ∧ final_value seq 100 false = Ok 100
  ∧ ¬ same_final_value seq 100.
Proof.
  split_and!; [by vm_compute..|].
  intros Hsame. by specialize (Hsame 115 100 eq_refl eq_refl).
Qed.

(** ** The closest solution of the search loop *)

Lemma scan_results_seen target sequence interimResults closest :
  scan_results target sequence interimResults closest
  = scan_seen target ((λ result, (result, sequence)) <$> interimResults)
      closest.
Proof.
  revert closest. unfold scan_results, scan_seen.
  induction interimResults as [|r rs IH]; intros closest; simpl; [done|].
  apply IH.
Qed.

Lemma scan_attempts_seen target attempts closest :
  scan_attempts target attempts closest
  = scan_seen target (results_seen attempts) closest.
Proof.
  revert closest. unfold scan_attempts, results_seen.
  induction attempts as [|[seq rs] attempts IH]; intros closest; [done|].
  cbn [foldl mbind list_bind fst snd]. rewrite IH, scan_results_seen.
  unfold scan_seen. by rewrite foldl_app.
Qed.

Lemma earliest_closest_all target seen best :
  earliest_closest target seen best →
  ∀ x, x ∈ seen → Z.abs (target - best.1) ≤ Z.abs (target - x.1).
Proof.
  intros (pre & post & -> & Hpre & Hpost) x Hx.
  rewrite Forall_forall in Hpre. rewrite Forall_forall in Hpost.
  apply elem_of_app in Hx as [Hx|Hx].
  - specialize (Hpre x Hx). lia.
  - apply elem_of_cons in Hx as [->|Hx]; [lia|]. by apply Hpost.
Qed.

Lemma scan_seen_earliest target seen :
  seen ≠ [] →
  ∃ best, scan_seen target seen None = Some best
          ∧ earliest_closest target seen best.
Proof.
  induction seen as [|[r s] seen IH] using rev_ind; [done|]. intros _.
  unfold scan_seen. rewrite foldl_app. simpl.
  destruct (decide (seen = [])) as [->|Hne].
  { simpl. exists (r, s). split; [done|].
    exists [], []. by split_and!. }
  destruct (IH Hne) as ([v sv] & Hscan & pre & post & Hseen & Hpre & Hpost).
  unfold scan_seen in Hscan. rewrite Hscan. unfold update_closest.
  destruct (Z.ltb_spec (Z.abs (target - r)) (Z.abs (target - v))) as [Hlt|Hge].
  - exists (r, s). split; [done|].
    exists seen, []. split_and!; [done| |done].
    rewrite Hseen. apply Forall_app. split; [|apply Forall_cons; split].
    + eapply Forall_impl; [exact Hpre|]. simpl. intros x Hx. lia.
    + simpl. lia.
    + eapply Forall_impl; [exact Hpost|]. simpl. intros x Hx. lia.
  - exists (v, sv). split; [done|].
    exists pre, (post ++ [(r, s)]). split_and!.
    + rewrite Hseen. by rewrite <- app_assoc.
    + done.
    + apply Forall_app. split; [done|]. by apply Forall_singleton.
Qed.

Section SearchFacts.
Context `{Random}.

(** The closest solution held by the loop is the one of the attempts it
    has made. *)
Lemma search_loop_closest clock numbers target closest0 attempts0 g
    closest attempts g' :
  closest0 = scan_attempts target (rev attempts0) None →
  search_loop clock numbers target closest0 attempts0 g
    = Ok (closest, attempts, g') →
  closest = scan_attempts target (rev attempts) None.
Proof.
  revert closest0 attempts0 g.
  induction clock as [|[] clock IH]; intros closest0 attempts0 g Hinv; simpl.
  - by intros [= <- <- <-].
  - destruct (generateRandomSequence numbers g) as [[[seq rs] g1]|e]; [|done].
    assert (Hnext : scan_results target seq rs closest0
                    = scan_attempts target (rev ((seq, rs) :: attempts0)) None).
    { simpl. unfold scan_attempts. rewrite foldl_app. simpl.
      by rewrite Hinv. }
    case_bool_decide.
    + by intros [= <- <- <-].
    + by apply IH.
  - by intros [= <- <- <-].
Qed.
End SearchFacts.

(** C9. The closest solution is replaced exactly when there is none yet
    or the new result is strictly closer to the target. So after any
    attempts with at least one interim result it is the first of all
    results seen, with the sequence it comes from, that is as close to the
    target as any of them; and this is what the search loop holds for the
    attempts it has made. *)
Theorem closest_solution_minimal :
  (∀ target sequence closest result,
     let closer :=
       closest = None
       ∨ ∃ c s, closest = Some (c, s)
                ∧ Z.abs (target - result) < Z.abs (target - c) in
     (closer → update_closest target sequence closest result
               = Some (result, sequence))
     ∧ (¬ closer → update_closest target sequence closest result = closest))
  ∧ (∀ target attempts,
       results_seen attempts ≠ [] →
       ∃ best,
         scan_attempts target attempts None = Some best
         ∧ earliest_closest target (results_seen attempts) best
         ∧ ∀ x, x ∈ results_seen attempts →
                Z.abs (target - best.1) ≤ Z.abs (target - x.1))
  ∧ (∀ (R : Random) clock numbers target g closest attempts g',
       search_loop clock numbers target None [] g
         = Ok (closest, attempts, g') →
       closest = scan_attempts target (rev attempts) None).
Proof.
  split_and!.
  - intros target sequence closest result closer. subst closer.
    unfold update_closest. split.
    + intros [->|(c & s & -> & Hlt)]; [done|].
      by destruct (Z.ltb_spec (Z.abs (target - result)) (Z.abs (target - c)));
        [|lia].
    + intros Hnot. destruct closest as [[c s]|]; [|by destruct Hnot; left].
      destruct (Z.ltb_spec (Z.abs (target - result)) (Z.abs (target - c)));
        [|done].
      destruct Hnot. right. by exists c, s.
  - intros target attempts Hne. rewrite scan_attempts_seen.
    destruct (scan_seen_earliest target _ Hne) as (best & Hscan & Hbest).
    exists best. split_and!; [done|done|].
    by apply earliest_closest_all.
  - intros R clock numbers target g closest attempts g'.
    by apply search_loop_closest.
Qed.

Lemma closest_solution_minimal_witness :
  ∃ best,
    scan_attempts 10 [([PInt 1], [3; 12; 8]); ([PInt 2], [7; 9; 11])] None
      = Some best
    ∧ best = (9, [PInt 2]).
Proof.
  destruct closest_solution_minimal as (_ & Hmin & _).
  destruct (Hmin 10 [([PInt 1], [3; 12; 8]); ([PInt 2], [7; 9; 11])])
    as (best & Hscan & _); [discriminate|].
  exists best. split; [exact Hscan|].
  vm_compute in Hscan. congruence.
Defined.

(** * Further properties *)

(** Membership in an explicit list, and its refutation. *)
Ltac elem_solve :=
  solve [ repeat first [apply list_elem_of_here | apply list_elem_of_further]
        | let H := fresh "H" in intros H; elem_cases H ].

(** ** The evaluator on short stacks and on other strings *)



(** X2. A string that is none of the four operators is never evaluated:
    on the empty stack the call raises IndexError, and on any other stack
    it raises UnboundLocalError after it has removed the top value, so
    that this failure does not leave the stack as it was. *)
Theorem rpnEvaluate_other_string (op : string) :
  op ∉ operatorSet →
  rpnEvaluate (PStr op) [] = (Raise IndexError, [])
  ∧ ∀ stack top,
      rpnEvaluate (PStr op) (stack ++ [top]) = (Raise UnboundLocalError, stack).
Proof.
  intros Hop.
  assert (Hres : ∀ stack, rpn_result op stack = (Ok None, stack)).
  { intros stack. unfold rpn_result.
    repeat case_decide; subst; try done;
      exfalso; apply Hop; elem_solve. }
  split.
  - unfold rpnEvaluate, bind. by rewrite Hres.
  - intros stack top. unfold rpnEvaluate, bind, stack_pop.
    by rewrite Hres, pop_snoc.
Qed.

Lemma rpnEvaluate_other_string_witness :
  ("^" ∉ operatorSet)
  ∧ rpnEvaluate (PStr "^") [] = (Raise IndexError, [])
  ∧ ∀ stack top,
      rpnEvaluate (PStr "^") (stack ++ [top]) = (Raise UnboundLocalError, stack).
Proof.
  assert (Hop : "^" ∉ operatorSet) by elem_solve.
  split; [exact Hop|]. exact (rpnEvaluate_other_string "^" Hop).
Defined.

(** ** The evaluator when it succeeds *)

Lemma apply_operator_legal op a b v :
  apply_operator op a b = Some (Ok v) ↔ legal_result op a b v.
Proof.
  unfold apply_operator, legal_result. split.
  - repeat case_decide; subst.
    + intros [= <-]. auto.
    + destruct (Z.ltb_spec (a - b) 0); intros [= <-].
      right. left. split_and!; [done|done|lia].
    + intros [= <-]. auto 10.
    + destruct (Z.eqb_spec b 0) as [|Hb]; [done|].
      destruct (Z.eqb_spec (a `mod` b) 0) as [Hm|]; [|done].
      simpl. intros [= <-]. do 3 right. split_and!; [done|done|].
      pose proof (Z.div_mod a b Hb). lia.
    + done.
  - intros [[-> ->]|[(-> & -> & Hle)|[[-> ->]|(-> & Hb & ->)]]]; simpl.
    + done.
    + by destruct (Z.ltb_spec (a - b) 0); [lia|].
    + done.
    + destruct (Z.eqb_spec b 0) as [|_]; [done|].
      rewrite Z.mod_mul by done. simpl. by rewrite Z.div_mul.
Qed.

Lemma rpnEvaluate_operator_Ok op stack stack' :
  rpnEvaluate (PStr op) stack = (Ok (), stack') ↔
  ∃ r a b v, stack = r ++ [a; b] ∧ stack' = r ++ [v]
             ∧ apply_operator op a b = Some (Ok v).
Proof.
  split.
  - intros Hev.
    pose proof (rpnEvaluate_operator_length _ _ _ Hev) as Hlen.
    destruct (snoc2_of_length stack Hlen) as (r & a & b & ->).
    rewrite rpnEvaluate_operator in Hev.
    destruct (apply_operator op a b) as [[v|e]|] eqn:Hop; [|done..].
    injection Hev as <-. by exists r, a, b, v.
  - intros (r & a & b & v & -> & -> & Hop).
    by rewrite rpnEvaluate_operator, Hop.
Qed.

(** X3. An operator is applied exactly when the stack ends in two values
    [a] and [b] that it is legal for; the two are then replaced by the
    result: [a + b], [a - b] when [b <= a], [a * b], and the [v] with
    [a = v * b] when [b] is not 0 and divides [a]. *)
Theorem rpnEvaluate_success (op : string) (stack stack' : list Z) :
  rpnEvaluate (PStr op) stack = (Ok (), stack') ↔
  ∃ r a b v, stack = r ++ [a; b] ∧ stack' = r ++ [v] ∧ legal_result op a b v.
Proof.
  rewrite rpnEvaluate_operator_Ok.
  split; intros (r & a & b & v & ? & ? & Hop); exists r, a, b, v;
    (split_and!; [done|done|by apply apply_operator_legal]).
Qed.

Lemma legal_result_nonneg op a b v :
  legal_result op a b v → 0 ≤ a → 0 ≤ b → 0 ≤ v.
Proof.
  intros [[_ ->]|[(_ & -> & Hle)|[[_ ->]|(_ & Hb & ->)]]] Ha Hb'; nia.
Qed.

Lemma rpnEvaluate_nonneg el stack stack' :
  Forall (λ v, 0 ≤ v) stack →
  (∀ z, el = PInt z → 0 ≤ z) →
  rpnEvaluate el stack = (Ok (), stack') →
  Forall (λ v, 0 ≤ v) stack'.
Proof.
  intros Hall Hel. destruct el as [z|op].
  - simpl. intros [= <-]. apply Forall_app. split; [done|].
    apply Forall_singleton. by apply Hel.
  - intros (r & a & b & v & -> & -> & Hop)%rpnEvaluate_operator_Ok.
    apply Forall_app in Hall as [Hr Hab].
    apply Forall_cons in Hab as [Ha Hb]. apply Forall_cons in Hb as [Hb _].
    apply Forall_app. split; [done|]. apply Forall_singleton.
    apply apply_operator_legal in Hop. by eapply legal_result_nonneg.
Qed.

(** X4. No negative results: when the stack holds no negative value and
    the element is an operator or a number that is not negative, the stack
    holds no negative value after a call that succeeds. *)
Theorem rpnEvaluate_keeps_nonnegative (el : element) (stack stack' : list Z) :
  Forall (λ v, 0 ≤ v) stack →
  (∀ z, el = PInt z → 0 ≤ z) →
  rpnEvaluate el stack = (Ok (), stack') →
  Forall (λ v, 0 ≤ v) stack'.
Proof. apply rpnEvaluate_nonneg. Qed.

Lemma rpnEvaluate_keeps_nonnegative_witness :
  (Forall (λ v, 0 ≤ v) [3; 12; 4]
   ∧ (∀ z, PStr "/" = PInt z → 0 ≤ z)
   ∧ rpnEvaluate (PStr "/") [3; 12; 4] = (Ok (), [3; 3]))
  ∧ Forall (λ v, 0 ≤ v) [3; 3].
Proof.
  assert (H1 : Forall (λ v, 0 ≤ v) [3; 12; 4])
    by (repeat (constructor; [lia|]); constructor).
  assert (H2 : ∀ z, PStr "/" = PInt z → 0 ≤ z) by done.
  split; [split_and!; [exact H1|exact H2|reflexivity]|].
  apply (rpnEvaluate_keeps_nonnegative (PStr "/") [3; 12; 4] [3; 3] H1 H2).
  reflexivity.
Defined.

(** ** generateRandomSequence on lists of any length *)

Section GeneratorLengths.
Context `{Random}.

Lemma loop_body_to_go p st g :
  elements_to_go (S p) st →
  ∃ st' g', loop_body st g = Ok (st', g')
            ∧ elements_to_go p st'
            ∧ length (sequence st') = S (length (sequence st)).
Proof.
  intros [Hcount Hstack]. unfold loop_body.
  destruct (choose_next st g) as [next g1] eqn:Hnext.
  assert (Hfit : match next with
                 | NextNumber => (1 ≤ length (numbers st))%nat
                 | NextOperator => (2 ≤ length (stack st))%nat
                 end).
  { revert Hnext. unfold choose_next. repeat case_decide.
    - intros [= <- <-]. lia.
    - intros [= <- <-]. lia.
    - destruct (random_lt_half g) as [[] g2]; intros [= <- <-]; lia. }
  destruct next; unfold append_next.
  - destruct (snoc1_of_length _ Hfit) as (r & x & Hnum).
    rewrite Hnum, pop_snoc. eexists _, g1. split; [done|].
    rewrite Hnum, length_app in Hcount. simpl in *.
    unfold elements_to_go. simpl. rewrite !length_app. simpl. lia.
  - destruct (snoc2_of_length _ Hfit) as (r & a & b & Hst).
    destruct (sample_operators g1) as [Hplus Hall].
    destruct (random_sample operatorSet 4 g1) as [operators g2]. simpl in *.
    rewrite Hst.
    destruct (try_operators_break operators (operator st) r a b Hplus Hall)
      as (op & v & _ & -> & _).
    rewrite index_neg_1_snoc. eexists _, g2. split; [done|].
    rewrite Hst, length_app in Hcount. simpl in *.
    unfold elements_to_go. simpl. rewrite !length_app. simpl. lia.
Qed.

Lemma loop_body_nothing_to_go st g :
  elements_to_go 0 st → loop_body st g = Raise IndexError.
Proof.
  intros [Hcount Hstack]. unfold loop_body, choose_next.
  case_decide; [|lia]. unfold append_next.
  destruct (numbers st) as [|x l]; [done|simpl in Hcount; lia].
Qed.

Lemma for_range_to_go i p st g :
  elements_to_go (i + p) st →
  ∃ st' g', for_range i st g = Ok (st', g')
            ∧ elements_to_go p st'
            ∧ length (sequence st') = (i + length (sequence st))%nat.
Proof.
  revert st g. induction i as [|i IH]; intros st g Hgo; simpl.
  - by exists st, g.
  - destruct (loop_body_to_go _ _ g Hgo) as (st1 & g1 & -> & Hgo1 & Hlen1).
    destruct (IH st1 g1 Hgo1) as (st2 & g2 & -> & Hgo2 & Hlen2).
    exists st2, g2. split_and!; [done|done|lia].
Qed.

Lemma for_range_too_far i p st g :
  elements_to_go p st → (p < i)%nat → for_range i st g = Raise IndexError.
Proof.
  revert i st g. induction p as [|p IH]; intros i st g Hgo Hlt;
    (destruct i as [|i]; [lia|]); simpl.
  - by rewrite loop_body_nothing_to_go.
  - destruct (loop_body_to_go _ _ g Hgo) as (st1 & g1 & -> & Hgo1 & _).
    apply IH; [done|lia].
Qed.

Lemma initial_locals_to_go numbersIn g :
  (2 ≤ length numbersIn)%nat →
  ∃ st g', initial_locals numbersIn g = Ok (st, g')
           ∧ elements_to_go (2 * length numbersIn - 3) st
           ∧ length (sequence st) = 2%nat.
Proof.
  intros Hlen. unfold initial_locals.
  pose proof (random_shuffle_perm numbersIn g) as Hperm.
  destruct (random_shuffle numbersIn g) as [shuffled g']. simpl in Hperm.
  assert (Hlen' : length shuffled = length numbersIn) by by rewrite Hperm.
  destruct (snoc2_of_length shuffled) as (r & n2 & n1 & ->); [lia|].
  rewrite snoc2_assoc, !pop_snoc. eexists _, g'. split; [done|].
  rewrite length_app in Hlen'. simpl in Hlen'.
  unfold elements_to_go. simpl. lia.
Qed.

Lemma initial_locals_too_short numbersIn g :
  (length numbersIn < 2)%nat → initial_locals numbersIn g = Raise IndexError.
Proof.
  intros Hlen. unfold initial_locals.
  pose proof (random_shuffle_perm numbersIn g) as Hperm.
  destruct (random_shuffle numbersIn g) as [shuffled g']. simpl in Hperm.
  assert (Hlen' : length shuffled = length numbersIn) by by rewrite Hperm.
  destruct shuffled as [|x [|y l]]; [done|done|simpl in Hlen'; lia].
Qed.

(** X5. The generator needs six numbers. With fewer it raises IndexError,
    whatever the random choices: the numbers run out before the nine
    iterations are over. With six or more it returns 11 elements. *)
Theorem generateRandomSequence_needs_six (numbersIn : list Z) (g : rng) :
  ((length numbersIn < 6)%nat →
   generateRandomSequence numbersIn g = Raise IndexError)
  ∧ ((6 ≤ length numbersIn)%nat →
     ∃ seq interim g',
       generateRandomSequence numbersIn g = Ok (seq, interim, g')
       ∧ length seq = 11%nat).
Proof.
  unfold generateRandomSequence, locals_after. split; intros Hlen.
  - destruct (decide (length numbersIn < 2)%nat) as [Hshort|Hlong].
    { by rewrite initial_locals_too_short. }
    destruct (initial_locals_to_go numbersIn g) as (st & g1 & -> & Hgo & _);
      [lia|].
    rewrite (for_range_too_far 9 _ st g1 Hgo); [done|lia].
  - destruct (initial_locals_to_go numbersIn g) as (st & g1 & -> & Hgo & Hseq);
      [lia|].
    replace (2 * length numbersIn - 3)%nat
      with (9 + (2 * length numbersIn - 12))%nat in Hgo by lia.
    destruct (for_range_to_go 9 _ st g1 Hgo) as (st' & g' & -> & _ & Hlen').
    exists (sequence st'), (interimResults st'), g'. split; [done|lia].
Qed.
End GeneratorLengths.

Lemma generateRandomSequence_needs_six_witness :
  let five_numbers : list Z := [25; 8; 3; 1; 6] in
  ((length five_numbers < 6)%nat
   ∧ @generateRandomSequence tape_random five_numbers short_tape
     = Raise IndexError)
  ∧ ((6 ≤ length six_numbers)%nat
     ∧ ∃ seq interim g',
         @generateRandomSequence tape_random six_numbers short_tape
           = Ok (seq, interim, g')
         ∧ length seq = 11%nat).
Proof.
  split; (split; [simpl; lia|]).
  - apply (@generateRandomSequence_needs_six tape_random). simpl. lia.
  - apply (@generateRandomSequence_needs_six tape_random). simpl. lia.
Defined.

(** ** The interim results of a generated sequence *)

Lemma replay_cons el seq stack :
  replay (el :: seq) stack =
    match rpnEvaluate el stack with
    | (Raise e, _) => Raise e
    | (Ok _, stack') =>
        match el with
        | PInt _ => replay seq stack'
        | PStr _ =>
            match index_neg 1 stack', replay seq stack' with
            | Some top, Ok (tops, final) => Ok (top :: tops, final)
            | None, _ => Raise IndexError
            | _, Raise e => Raise e
            end
        end
    end.
Proof. done. Qed.

(** One step of a replay that succeeds. *)
Lemma replay_cons_Ok el seq stack tops final :
  replay (el :: seq) stack = Ok (tops, final) →
  ∃ stack1 tops1,
    rpnEvaluate el stack = (Ok (), stack1)
    ∧ replay seq stack1 = Ok (tops1, final)
    ∧ tops = match el with
             | PInt _ => tops1
             | PStr _ => match last stack1 with
                         | Some top => top :: tops1
                         | None => tops1
                         end
             end
    ∧ (∀ op, el = PStr op → stack1 ≠ []).
Proof.
  rewrite replay_cons.
  destruct (rpnEvaluate el stack) as [[[]|e] stack1]; [|done].
  destruct el as [z|op].
  - intros Hrep. by exists stack1, tops.
  - rewrite index_neg_1_last.
    destruct (last stack1) as [top|] eqn:Htop; [|done].
    destruct (replay seq stack1) as [[tops1 final1]|e] eqn:Hrep; [|done].
    intros [= <- <-]. exists stack1, tops1.
    split_and!; [done|done|by rewrite Htop|].
    intros _ _ ->. done.
Qed.

Lemma replay_tops_length seq stack tops final :
  replay seq stack = Ok (tops, final) →
  length tops = length (operators_of seq).
Proof.
  revert stack tops. induction seq as [|el seq IH]; intros stack tops.
  - by intros [= <- _].
  - intros (stack1 & tops1 & _ & Hrep & -> & Hne)%replay_cons_Ok.
    apply IH in Hrep. destruct el as [z|op]; [done|].
    destruct (last stack1) eqn:Hlast; [simpl; by f_equal|].
    apply last_None in Hlast. by destruct (Hne op).
Qed.

Lemma replay_nonneg seq stack tops final :
  Forall (λ v, 0 ≤ v) (numbers_of seq) →
  Forall (λ v, 0 ≤ v) stack →
  replay seq stack = Ok (tops, final) →
  Forall (λ v, 0 ≤ v) tops ∧ Forall (λ v, 0 ≤ v) final.
Proof.
  revert stack tops. induction seq as [|el seq IH]; intros stack tops Hnum Hst.
  - by intros [= <- <-].
  - intros (stack1 & tops1 & Hev & Hrep & -> & _)%replay_cons_Ok.
    assert (Hst1 : Forall (λ v, 0 ≤ v) stack1).
    { eapply rpnEvaluate_nonneg; [exact Hst| |exact Hev].
      intros z ->. by apply Forall_cons in Hnum as [? _]. }
    assert (Hnum1 : Forall (λ v, 0 ≤ v) (numbers_of seq)).
    { destruct el; [by apply Forall_cons in Hnum as [_ ?]|done]. }
    destruct (IH _ _ Hnum1 Hst1 Hrep) as [Htops Hfinal].
    split; [|done]. destruct el as [z|op]; [done|].
    destruct (last stack1) as [top|] eqn:Hlast; [|done].
    apply Forall_cons. split; [|done].
    rewrite Forall_forall in Hst1. apply Hst1.
    apply last_Some in Hlast as [l' ->]. apply elem_of_app. right.
    apply list_elem_of_here.
Qed.

(** After the last operator the top of the stack is the last of the tops. *)
Lemma replay_last_operator seq op stack tops final :
  replay (seq ++ [PStr op]) stack = Ok (tops, final) →
  ∃ v, last tops = Some v ∧ last final = Some v.
Proof.
  revert stack tops. induction seq as [|el seq IH]; intros stack tops.
  - intros (stack1 & tops1 & _ & Hrep & -> & Hne)%replay_cons_Ok.
    simpl in Hrep. injection Hrep as <- <-.
    destruct (last stack1) as [top|] eqn:Hlast.
    + by exists top.
    + apply last_None in Hlast. by destruct (Hne op).
  - simpl app.
    intros (stack1 & tops1 & _ & Hrep & -> & _)%replay_cons_Ok.
    destruct (IH _ _ Hrep) as (v & Hv & Hfinal). exists v. split; [|done].
    destruct el as [z|op']; [done|].
    destruct (last stack1); [|done].
    destruct tops1; [done|]. done.
Qed.

Section GeneratorResults.
Context `{Random}.

(** What the loop invariant gives for the values returned. *)
Lemma generateRandomSequence_results numbersIn g :
  length numbersIn = 6%nat →
  ∃ seq interim g' tops v,
    generateRandomSequence numbersIn g = Ok (seq, interim, g')
    ∧ numbers_of seq ≡ₚ numbersIn
    ∧ replay seq [] = Ok (tops, [v])
    ∧ interim = numbersIn ++ tops
    ∧ length tops = 5%nat
    ∧ last tops = Some v.
Proof.
  intros Hlen. unfold generateRandomSequence.
  destruct (locals_after_inv numbersIn g 9 Hlen) as (st & g' & -> & Hinv);
    [done|].
  destruct Hinv as [Hcount Hstack Hlength Hperm _ Hprefix Hexcess
                      (tops & Hrep & Hint)].
  simpl in *.
  assert (Hnum : numbers st = []) by (apply length_zero_iff_nil; lia).
  rewrite Hnum, app_nil_r in Hperm.
  destruct (stack st) as [|v [|w l]] eqn:Hst; simpl in *; [lia| |lia].
  assert (Hops : length tops = 5%nat).
  { rewrite (replay_tops_length _ _ _ _ Hrep).
    pose proof (length_numbers_operators (sequence st)) as Hsplit.
    rewrite Hperm, Hlen in Hsplit. lia. }
  exists (sequence st), (interimResults st), g', tops, v.
  split_and!; [done..|].
  (* the last element is an operator: the ten before it have an excess
     of 1 at least, and the eleven an excess of 1 *)
  destruct (sequence st) as [|el seq _] using rev_ind; [simpl in *; lia|].
  rewrite length_app in Hlength. simpl in Hlength.
  destruct el as [z|op].
  - specialize (Hprefix (length seq)).
    rewrite take_app_length in Hprefix.
    rewrite excess_snoc_number in Hexcess.
    rewrite length_app in Hprefix. simpl in Hprefix. lia.
  - destruct (replay_last_operator _ _ _ _ _ Hrep) as (v' & Hv' & Hfin).
    simpl in Hfin. by injection Hfin as <-.
Qed.

Lemma generateRandomSequence_interim_nonneg numbersIn g :
  length numbersIn = 6%nat →
  Forall (λ x, 0 ≤ x) numbersIn →
  ∃ seq interim g',
    generateRandomSequence numbersIn g = Ok (seq, interim, g')
    ∧ numbers_of seq ≡ₚ numbersIn
    ∧ Forall (λ x, 0 ≤ x) interim.
Proof.
  intros Hlen Hnonneg.
  destruct (generateRandomSequence_results numbersIn g Hlen)
    as (seq & interim & g' & tops & v & Hgen & Hperm & Hrep & -> & _).
  exists seq, (numbersIn ++ tops), g'. split_and!; [done|done|].
  apply Forall_app. split; [done|].
  destruct (replay_nonneg seq [] tops [v]) as [Htops _];
    [by rewrite Hperm|apply Forall_nil_2|exact Hrep|done].
Qed.

(** X6. No negative intermediate results: for six numbers none of which
    is negative, none of the interim results returned is negative. *)
Theorem generateRandomSequence_nonnegative (numbersIn : list Z) (g : rng) :
  length numbersIn = 6%nat →
  Forall (λ x, 0 ≤ x) numbersIn →
  ∃ seq interim g',
    generateRandomSequence numbersIn g = Ok (seq, interim, g')
    ∧ Forall (λ x, 0 ≤ x) interim.
Proof.
  intros Hlen Hnonneg.
  destruct (generateRandomSequence_interim_nonneg numbersIn g Hlen Hnonneg)
    as (seq & interim & g' & ? & _ & ?).
  by exists seq, interim, g'.
Qed.

(** X7. A generated sequence is one complete expression: there are 11
    interim results, the six numbers and one for each of the five
    operators, and replaying the sequence leaves a single value on the
    stack, which is the last interim result. *)
Theorem generateRandomSequence_complete (numbersIn : list Z) (g : rng) :
  length numbersIn = 6%nat →
  ∃ seq interim g' v,
    generateRandomSequence numbersIn g = Ok (seq, interim, g')
    ∧ length interim = 11%nat
    ∧ replay seq [] = Ok (drop 6 interim, [v])
    ∧ last interim = Some v.
Proof.
  intros Hlen.
  destruct (generateRandomSequence_results numbersIn g Hlen)
    as (seq & interim & g' & tops & v & Hgen & _ & Hrep & -> & Htops & Hlast).
  exists seq, (numbersIn ++ tops), g', v.
  split_and!; [done| | |].
  - rewrite length_app. lia.
  - rewrite <- Hlen. by rewrite drop_app_length.
  - rewrite last_app. by rewrite Hlast.
Qed.
End GeneratorResults.

Lemma generateRandomSequence_nonnegative_witness :
  (length six_numbers = 6%nat ∧ Forall (λ x, 0 ≤ x) six_numbers)
  ∧ ∃ seq interim g',
      @generateRandomSequence tape_random six_numbers short_tape
        = Ok (seq, interim, g')
      ∧ Forall (λ x, 0 ≤ x) interim.
Proof.
  split; [split; [reflexivity|apply six_numbers_nonneg]|].
  apply (@generateRandomSequence_nonnegative tape_random);
    [reflexivity|apply six_numbers_nonneg].
Defined.

Lemma generateRandomSequence_complete_witness :
  length six_numbers = 6%nat
  ∧ ∃ seq interim g' v,
      @generateRandomSequence tape_random six_numbers short_tape
        = Ok (seq, interim, g')
      ∧ length interim = 11%nat
      ∧ replay seq [] = Ok (drop 6 interim, [v])
      ∧ last interim = Some v.
Proof.
  split; [reflexivity|].
  apply (@generateRandomSequence_complete tape_random). reflexivity.
Defined.

(** ** The expression returned by formatSolution *)

Lemma stacks_of_snoc_inv es calcStack v outputStack :
  stacks_of es (calcStack ++ [v]) outputStack →
  ∃ es1 e, es = es1 ++ [e]
           ∧ value e = Some v
           ∧ stacks_of es1 calcStack (render <$> es1)
           ∧ outputStack = (render <$> es1) ++ [render e].
Proof.
  intros [Hval ->].
  apply Forall2_app_inv_r in Hval as (es1 & es2 & Hval1 & Hval2 & ->).
  apply Forall2_cons_inv_r in Hval2 as (e & es3 & He & Hnil & ->).
  apply Forall2_nil_inv_r in Hnil as ->.
  exists es1, e. split_and!; [done|done|done|]. by rewrite fmap_app.
Qed.

Lemma stacks_of_snoc2_inv es calcStack a b outputStack :
  stacks_of es (calcStack ++ [a; b]) outputStack →
  ∃ es1 ea eb, es = es1 ++ [ea; eb]
               ∧ value ea = Some a
               ∧ value eb = Some b
               ∧ stacks_of es1 calcStack (render <$> es1)
               ∧ outputStack = (render <$> es1) ++ [render ea; render eb].
Proof.
  rewrite snoc2_assoc.
  intros (es2 & eb & -> & Hb & Hes2 & ->)%stacks_of_snoc_inv.
  apply stacks_of_snoc_inv in Hes2 as (es1 & ea & -> & Ha & Hes1 & ->).
  exists es1, ea, eb. by rewrite <- !app_assoc.
Qed.

Lemma stacks_of_snoc es calcStack e v :
  stacks_of es calcStack (render <$> es) →
  value e = Some v →
  stacks_of (es ++ [e]) (calcStack ++ [v]) ((render <$> es) ++ [render e]).
Proof.
  intros [Hval _] He. split; [|by rewrite fmap_app].
  apply Forall2_app; [done|]. by apply Forall2_cons.
Qed.

Lemma infix_result_leaves op a b v ea eb :
  apply_operator op a b = Some (Ok v) →
  value ea = Some a → value eb = Some b →
  ∃ e, render e = infix_result op (render ea) (render eb)
       ∧ value e = Some v
       ∧ leaves e ≡ₚ leaves ea ++ leaves eb.
Proof.
  intros Hop Ha Hb. unfold infix_result.
  case_bool_decide as Hcomm; simpl.
  - destruct (_ <? _)%nat.
    + exists (Bin op eb ea). simpl.
      rewrite Ha, Hb, (apply_operator_comm op a b Hcomm), Hop.
      split_and!; [done|done|apply Permutation_app_comm].
    + exists (Bin op ea eb). simpl. by rewrite Ha, Hb, Hop.
  - exists (Bin op ea eb). simpl. by rewrite Ha, Hb, Hop.
Qed.

Lemma format_element_exprs target ign el es calcStack outputStack
    flow calc' out' :
  stacks_of es calcStack outputStack →
  format_element target ign el calcStack outputStack = Ok (flow, calc', out') →
  ∃ es', stacks_of es' calc' out'
         ∧ concat (leaves <$> es')
           ⊆+ concat (leaves <$> es) ++ numbers_of [el].
Proof.
  intros Hes Hstep.
  assert (Hlen : length outputStack = length calcStack).
  { destruct Hes as [Hval ->]. rewrite length_fmap.
    by apply Forall2_length in Hval. }
  destruct (ignores ign calcStack el) eqn:Hign.
  - unfold format_element in Hstep. rewrite Hign in Hstep.
    destruct (pop calcStack) as [[v c1]|] eqn:Hc; [|done].
    destruct (pop outputStack) as [[s o1]|] eqn:Ho; [|done].
    injection Hstep as <- <- <-.
    apply pop_Some in Hc as ->.
    apply stacks_of_snoc_inv in Hes as (es1 & e & -> & _ & Hes1 & ->).
    rewrite pop_snoc in Ho. injection Ho as <- <-.
    exists es1. split; [done|].
    rewrite fmap_app, concat_app. by do 2 apply submseteq_inserts_r.
  - destruct el as [z|op].
    + unfold format_element in Hstep. rewrite Hign in Hstep. simpl in Hstep.
      injection Hstep as <- <- <-.
      destruct Hes as [Hval ->].
      exists (es ++ [Num z]). split.
      * by apply (stacks_of_snoc es calcStack (Num z) z).
      * rewrite fmap_app, concat_app. simpl. done.
    + destruct (decide (2 ≤ length outputStack)%nat) as [Hlen2|Hlen2].
      2:{ unfold format_element in Hstep. rewrite Hign in Hstep.
          destruct (rpnEvaluate (PStr op) calcStack) as [[[]|e] calc1];
            [|done].
          by rewrite (index_neg_None 2 outputStack) in Hstep by lia. }
      destruct (snoc2_of_length calcStack) as (r & a & b & ->); [lia|].
      apply stacks_of_snoc2_inv
        in Hes as (es1 & ea & eb & -> & Ha & Hb & Hes1 & ->).
      destruct (apply_operator op a b) as [[v|e]|] eqn:Hop.
      2,3: unfold format_element in Hstep;
           by rewrite Hign, rpnEvaluate_operator, Hop in Hstep.
      rewrite (format_element_apply target ign r a b op v _ _ _ Hign Hop)
        in Hstep.
      injection Hstep as <- <- <-.
      destruct (infix_result_leaves op a b v ea eb Hop Ha Hb)
        as (e & <- & He & Hleaves).
      exists (es1 ++ [e]). split.
      * by apply stacks_of_snoc.
      * rewrite !fmap_app, !concat_app. simpl. rewrite !app_nil_r.
        apply Permutation_submseteq. by rewrite Hleaves.
Qed.

Lemma format_loop_exprs target ign seq es calcStack outputStack calcE outE :
  stacks_of es calcStack outputStack →
  format_loop target ign seq calcStack outputStack = Ok (calcE, outE) →
  ∃ es', stacks_of es' calcE outE
         ∧ concat (leaves <$> es') ⊆+ concat (leaves <$> es) ++ numbers_of seq.
Proof.
  revert es calcStack outputStack.
  induction seq as [|el seq IH]; intros es calcStack outputStack Hes;
    cbn [format_loop].
  - intros [= <- <-]. exists es. split; [done|]. simpl. by rewrite app_nil_r.
  - destruct (format_element target ign el calcStack outputStack)
      as [[[flow calc1] out1]|e] eqn:Hstep; [|done].
    destruct (format_element_exprs _ _ _ _ _ _ _ _ _ Hes Hstep)
      as (es1 & Hes1 & Hsub1).
    assert (Hcons : numbers_of (el :: seq) = numbers_of [el] ++ numbers_of seq).
    { by destruct el. }
    destruct flow.
    + intros Hloop. destruct (IH _ _ _ Hes1 Hloop) as (es2 & Hes2 & Hsub2).
      exists es2. split; [done|].
      etrans; [exact Hsub2|]. rewrite Hcons, app_assoc.
      by apply submseteq_skips_r.
    + intros [= <- <-]. exists es1. split; [done|].
      etrans; [exact Hsub1|]. rewrite Hcons, app_assoc.
      by apply submseteq_inserts_r.
Qed.

(** When [formatSolution] returns: the expression of the string, its
    value and its numbers. *)
Lemma formatSolution_returns seq target ign output n :
  formatSolution seq target ign = Ok (output, n) →
  ∃ e v,
    output = render e +:+ " = " +:+ str target
    ∧ n = count_numbers (render e)
    ∧ value e = Some v
    ∧ final_value seq target ign = Ok v
    ∧ leaves e ⊆+ numbers_of seq.
Proof.
  unfold formatSolution, final_value.
  destruct (format_loop target ign seq [] []) as [[calcE outE]|e] eqn:Hloop;
    [|done].
  destruct (format_loop_exprs target ign seq [] [] [] calcE outE)
    as (es & Hes & Hsub); [by split|done|].
  destruct (index_neg 1 outE) as [expression|] eqn:Hexpr; [|done].
  intros [= <- <-].
  destruct Hes as [Hval ->].
  rewrite index_neg_1_last in Hexpr.
  destruct es as [|e es _] using rev_ind; [done|].
  rewrite fmap_snoc, last_snoc in Hexpr. injection Hexpr as <-.
  apply Forall2_app_inv_l in Hval as (c1 & c2 & _ & Hval2 & ->).
  apply Forall2_cons_inv_l in Hval2 as (v & c3 & Hv & Hnil & ->).
  apply Forall2_nil_inv_l in Hnil as ->.
  exists e, v. rewrite index_neg_1_snoc.
  split_and!; [done..|].
  rewrite fmap_app, concat_app in Hsub. simpl in Hsub.
  rewrite app_nil_r in Hsub.
  etrans; [|exact Hsub]. by apply submseteq_inserts_l.
Qed.

(** X8. Each number at most once: when [formatSolution] returns, the
    string is an expression followed by [" = "] and the target, and the
    numbers of the expression are numbers of the sequence, none taken more
    often than the sequence has it. *)
Theorem formatSolution_numbers_once seq target ign output n :
  formatSolution seq target ign = Ok (output, n) →
  ∃ e, output = render e +:+ " = " +:+ str target
       ∧ leaves e ⊆+ numbers_of seq.
Proof.
  intros (e & v & -> & _ & _ & _ & Hsub)%formatSolution_returns.
  by exists e.
Qed.

Lemma formatSolution_numbers_once_witness :
  let seq := [PInt 25; PInt 8; PStr "*"; PInt 1; PStr "*"; PInt 3; PStr "+"] in
  formatSolution seq 200 true = Ok ("(25 * 8) = 200", 2%nat)
  ∧ ∃ e, "(25 * 8) = 200" = render e +:+ " = " +:+ str 200
         ∧ leaves e ⊆+ numbers_of seq.
Proof.
  split; [reflexivity|].
  apply (formatSolution_numbers_once _ 200 true _ 2%nat). reflexivity.
Defined.

(** ** The count of the numbers used *)

Lemma split_cons_inv sep s : ∃ tok toks, split sep s = tok :: toks.
Proof.
  destruct s as [|c rest]; simpl; [by eexists _, _|].
  case_decide; [by eexists _, _|].
  destruct (split sep rest); by eexists _, _.
Qed.

(** The tokens that are not empty are the runs of numeric characters. *)
Lemma count_tokens_runs s :
  ∃ tok toks,
    split " " (blank_non_numeric s) = tok :: toks
    ∧ runs true s
      = length (filter (λ token, (0 < String.length token)%nat) toks)
    ∧ runs false s
      = length (filter (λ token, (0 < String.length token)%nat) (tok :: toks)).
Proof.
  induction s as [|c rest (tok & toks & Hsplit & Htrue & Hfalse)].
  - by exists "", [].
  - cbn [blank_non_numeric split runs].
    destruct (isnumeric c) eqn:Hc.
    + case_decide as Hsp; [by subst c|].
      rewrite Hsplit. exists (String c tok), toks.
      split_and!; [done|by rewrite Htrue|].
      rewrite filter_cons_True by (simpl; lia). simpl. by rewrite Htrue.
    + case_decide as Hsp; [|done].
      rewrite Hsplit. exists "", (tok :: toks).
      split_and!; [done|done|].
      by rewrite (filter_cons_False _ "") by (simpl; lia).
Qed.

Lemma count_numbers_runs s : count_numbers s = runs false s.
Proof.
  unfold count_numbers.
  destruct (count_tokens_runs s) as (tok & toks & -> & _ & ->). done.
Qed.

Lemma runs_app inside s1 s2 :
  runs inside (s1 +:+ s2)
  = (runs inside s1 + runs (ends_numeric inside s1) s2)%nat.
Proof.
  revert inside. induction s1 as [|c s1 IH]; intros inside; simpl; [done|].
  destruct (isnumeric c); rewrite IH; lia.
Qed.

(** The digits of a number are one run. *)
Lemma runs_digits (d : Decimal.uint) :
  runs true (NilEmpty.string_of_uint d) = 0%nat.
Proof. induction d; simpl; done. Qed.

Lemma runs_str z : runs false (str z) = 1%nat.
Proof.
  unfold str, NilZero.string_of_int.
  assert (Huint : ∀ d, runs false (NilZero.string_of_uint d) = 1%nat).
  { intros d. destruct d; simpl; try done; by rewrite runs_digits. }
  destruct (Z.to_int z); simpl; apply Huint.
Qed.

Lemma apply_operator_Some op a b x :
  apply_operator op a b = Some x → op ∈ operatorSet.
Proof.
  unfold apply_operator. repeat case_decide; subst; try done; intros _;
    elem_solve.
Qed.

Lemma runs_infix l op r :
  op ∈ operatorSet →
  runs false (format_infix l op r) = (runs false l + runs false r)%nat.
Proof.
  intros Hop. unfold format_infix.
  elem_cases Hop; rewrite !runs_app; simpl;
    change (isnumeric "(") with false; change (isnumeric " ") with false; lia.
Qed.

(** In an expression that has a value, every number is one run. *)
Lemma runs_render e v :
  value e = Some v → runs false (render e) = length (leaves e).
Proof.
  revert v. induction e as [z|op l IHl r IHr]; intros v; simpl.
  - intros _. apply runs_str.
  - destruct (value l) as [a|] eqn:Hl; [|done].
    destruct (value r) as [b|] eqn:Hr; [|done].
    destruct (apply_operator op a b) as [x|] eqn:Hop; [|done]. intros _.
    apply apply_operator_Some in Hop.
    rewrite length_app, <- (IHl a eq_refl), <- (IHr b eq_refl).
    by apply runs_infix.
Qed.

(** X9. The count returned by [formatSolution] is the number of numbers
    in the expression of the string returned, and so at most the number
    of numbers in the sequence. *)
Theorem formatSolution_count seq target ign output n :
  formatSolution seq target ign = Ok (output, n) →
  ∃ e, output = render e +:+ " = " +:+ str target
       ∧ n = length (leaves e)
       ∧ (n ≤ length (numbers_of seq))%nat.
Proof.
  intros (e & v & -> & -> & Hv & _ & Hsub)%formatSolution_returns.
  exists e. rewrite count_numbers_runs, (runs_render e v Hv).
  split_and!; [done|done|]. by apply submseteq_length.
Qed.

Lemma formatSolution_count_witness :
  let seq := [PInt 25; PInt 8; PStr "*"; PInt 1; PStr "*"; PInt 3; PStr "+"] in
  formatSolution seq 203 true = Ok ("((25 * 8) + 3) = 203", 3%nat)
  ∧ ∃ e, "((25 * 8) + 3) = 203" = render e +:+ " = " +:+ str 203
         ∧ 3%nat = length (leaves e)
         ∧ (3 ≤ length (numbers_of seq))%nat.
Proof.
  split; [reflexivity|].
  apply (formatSolution_count _ 203 true _ 3%nat). reflexivity.
Defined.

(** ** formatSolution on a sequence that replays *)

(** Without [ignoreMultiplyByOne] the loop follows the replay, up to the
    first operator that leaves the target on top. *)
Lemma format_loop_replay target seq calcStack outputStack tops final :
  replay seq calcStack = Ok (tops, final) →
  length outputStack = length calcStack →
  ∃ calcE outE,
    format_loop target false seq calcStack outputStack = Ok (calcE, outE)
    ∧ length outE = length calcE
    ∧ (target ∈ tops → last calcE = Some target)
    ∧ (target ∉ tops → calcE = final).
Proof.
  revert calcStack outputStack tops.
  induction seq as [|el seq IH]; intros calcStack outputStack tops.
  - intros [= <- <-] Hlen. exists calcStack, outputStack.
    split_and!; [done|done| |done]. by intros ?%elem_of_nil.
  - intros (stack1 & tops1 & Hev & Hrep & -> & Hne)%replay_cons_Ok Hlen.
    cbn [format_loop]. destruct el as [z|op].
    + unfold format_element. rewrite ignores_number, Hev.
      simpl in Hev. injection Hev as <-.
      apply (IH _ (outputStack ++ [str z]) _ Hrep).
      rewrite !length_app. simpl. lia.
    + apply rpnEvaluate_operator_Ok in Hev
        as (r & a & b & v & -> & -> & Hop).
      destruct (snoc2_of_length outputStack) as (ro & x & y & ->).
      { rewrite Hlen, length_app. simpl. lia. }
      rewrite (format_element_apply target false r a b op v ro x y
                 (ignores_false _ _) Hop).
      rewrite last_snoc.
      rewrite !length_app in Hlen. simpl in Hlen.
      destruct (Z.eqb_spec v target) as [->|Hv].
      * eexists (r ++ [target]), _. split; [done|].
        rewrite !length_app, last_snoc. simpl.
        split_and!; [lia|done|].
        intros Hnot. destruct Hnot. apply list_elem_of_here.
      * destruct (IH (r ++ [v]) (ro ++ [infix_result op x y]) _ Hrep)
          as (calcE & outE & -> & HlenE & Hin & Hnot).
        { rewrite !length_app. simpl. lia. }
        exists calcE, outE. split_and!; [done|done| |].
        -- intros [?|?]%elem_of_cons; [congruence|auto].
        -- intros Hnotin. apply Hnot. intros ?. apply Hnotin.
           by apply list_elem_of_further.
Qed.



Lemma formatSolution_reaches seq target ign tops final :
  replay seq [] = Ok (tops, final) →
  target ∈ tops →
  target ∉ numbers_of seq →
  ∃ output n e,
    formatSolution seq target ign = Ok (output, n)
    ∧ output = render e +:+ " = " +:+ str target
    ∧ value e = Some target
    ∧ leaves e ⊆+ numbers_of seq.
Proof.
  intros Hrep Hin Hnot.
  destruct (format_loop_replay target seq [] [] tops final Hrep)
    as (calcE & outFE & HloopF & HlenF & Hlast & _); [done|].
  specialize (Hlast Hin).
  assert (Hloop : ∃ outE, format_loop target ign seq [] [] = Ok (calcE, outE)
                          ∧ length outE = length calcE).
  { destruct ign; [|by exists outFE].
    destruct (format_loop_sim target seq [] [] [] calcE outFE Hnot)
      as (outTE & HloopT & _ & HlenT); [done..|]. by exists outTE. }
  destruct Hloop as (outE & Hloop & Hlen).
  assert (Hout : ∃ s, index_neg 1 outE = Some s).
  { apply index_neg_1_is_Some. rewrite Hlen.
    apply last_Some in Hlast as [l' ->]. rewrite length_app. simpl. lia. }
  destruct Hout as [s Hs].
  assert (HF : formatSolution seq target ign
               = Ok (s +:+ " = " +:+ str target, count_numbers s)).
  { unfold formatSolution. by rewrite Hloop, Hs. }
  destruct (formatSolution_returns _ _ _ _ _ HF)
    as (e & v & Hrender & _ & Hv & Hfinal & Hsub).
  exists (s +:+ " = " +:+ str target), (count_numbers s), e.
  split_and!; [done|done| |done].
  unfold final_value in Hfinal.
  rewrite Hloop, Hs, index_neg_1_last, Hlast in Hfinal.
  by injection Hfinal as <-.
Qed.



(** ** formatSolution: when it returns *)

Lemma rpnEvaluate_string_empty op :
  rpnEvaluate (PStr op) [] = (Raise IndexError, []).
Proof.
  unfold rpnEvaluate, rpn_result, bind, stack_index, stack_pop.
  repeat case_decide; done.
Qed.

(** X12. A sequence has to start with a number: on the empty sequence and
    on a sequence that starts with a string, [formatSolution] raises
    IndexError. *)
Theorem formatSolution_needs_number seq target ign :
  (∀ z rest, seq ≠ PInt z :: rest) →
  formatSolution seq target ign = Raise IndexError.
Proof.
  intros Hseq. destruct seq as [|[z|op] rest].
  - done.
  - by destruct (Hseq z rest).
  - unfold formatSolution. cbn [format_loop]. unfold format_element.
    assert (Hign : ignores ign [] (PStr op) = false).
    { unfold ignores. simpl. by rewrite andb_false_r. }
    by rewrite Hign, rpnEvaluate_string_empty.
Qed.

Lemma formatSolution_needs_number_witness :
  (∀ z rest, [PStr "+"; PInt 5; PInt 5] ≠ PInt z :: rest)
  ∧ formatSolution [PStr "+"; PInt 5; PInt 5] 10 true = Raise IndexError.
Proof.
  assert (Hseq : ∀ z rest, [PStr "+"; PInt 5; PInt 5] ≠ PInt z :: rest)
    by done.
  split; [exact Hseq|].
  exact (formatSolution_needs_number _ 10 true Hseq).
Defined.

(** On a sequence that replays, the loop of [formatSolution] does not
    fail, with [ignoreMultiplyByOne] or without. *)
Lemma format_loop_returns target ign seq calcStack outputStack tops final :
  replay seq calcStack = Ok (tops, final) →
  length outputStack = length calcStack →
  ∃ calcE outE,
    format_loop target ign seq calcStack outputStack = Ok (calcE, outE)
    ∧ length outE = length calcE
    ∧ (final ≠ [] → calcE ≠ []).
Proof.
  revert calcStack outputStack tops.
  induction seq as [|el seq IH]; intros calcStack outputStack tops.
  - intros [= <- <-] Hlen. by exists calcStack, outputStack.
  - intros (stack1 & tops1 & Hev & Hrep & -> & Hne)%replay_cons_Ok Hlen.
    cbn [format_loop]. destruct el as [z|op].
    + unfold format_element. rewrite ignores_number, Hev.
      simpl in Hev. injection Hev as <-.
      apply (IH _ (outputStack ++ [str z]) _ Hrep).
      rewrite !length_app. simpl. lia.
    + apply rpnEvaluate_operator_Ok in Hev
        as (r & a & b & v & -> & -> & Hop).
      destruct (snoc2_of_length outputStack) as (ro & x & y & ->).
      { rewrite Hlen, length_app. simpl. lia. }
      rewrite !length_app in Hlen. simpl in Hlen.
      destruct (ignores ign (r ++ [a; b]) (PStr op)) eqn:Hign.
      * assert (ign = true) as ->.
        { destruct ign; [done|]. by rewrite ignores_false in Hign. }
        destruct (ignores_true_inv _ _ _ _ Hign) as [-> Hmul].
        apply (apply_operator_one _ _ _ Hmul) in Hop as ->.
        rewrite (format_element_skip target r a 1 op ro x y Hign).
        apply (IH _ (ro ++ [x]) _ Hrep). rewrite !length_app. simpl. lia.
      * rewrite (format_element_apply target ign r a b op v ro x y Hign Hop).
        destruct (v =? target).
        -- eexists (r ++ [v]), _. split; [done|]. rewrite !length_app. simpl.
           split; [lia|]. intros _. by destruct r.
        -- apply (IH _ (ro ++ [infix_result op x y]) _ Hrep).
           rewrite !length_app. simpl. lia.
Qed.

Lemma formatSolution_replay_returns seq target ign tops final :
  replay seq [] = Ok (tops, final) →
  final ≠ [] →
  ∃ output n, formatSolution seq target ign = Ok (output, n).
Proof.
  intros Hrep Hfinal. unfold formatSolution.
  destruct (format_loop_returns target ign seq [] [] tops final Hrep)
    as (calcE & outE & -> & Hlen & Hne); [done|].
  destruct (index_neg_1_is_Some outE) as [expression ->]; [|by eexists _, _].
  specialize (Hne Hfinal). rewrite Hlen. destruct calcE; [done|simpl; lia].
Qed.



(** ** The search loop and the report *)

Lemma elem_of_rev {A} (x : A) (l : list A) : x ∈ rev l ↔ x ∈ l.
Proof. rewrite !list_elem_of_In. symmetry. apply in_rev. Qed.

Lemma elem_of_results_seen x attempts :
  x ∈ results_seen attempts ↔
  ∃ attempt, attempt ∈ attempts ∧ x.2 = attempt.1 ∧ x.1 ∈ attempt.2.
Proof.
  unfold results_seen. rewrite list_elem_of_bind. split.
  - intros (attempt & (r & -> & Hr)%list_elem_of_fmap & Hin).
    by exists attempt.
  - intros (attempt & Hin & Hseq & Hr). exists attempt. split; [|done].
    apply list_elem_of_fmap. exists x.1. split; [|done].
    rewrite <- Hseq. by destruct x.
Qed.

Section SearchRun.
Context `{Random}.

Lemma generateRandomSequence_generated numbers g :
  length numbers = 6%nat →
  ∃ seq interim g',
    generateRandomSequence numbers g = Ok (seq, interim, g')
    ∧ generated numbers (seq, interim).
Proof.
  intros Hlen.
  destruct (generateRandomSequence_results numbers g Hlen)
    as (seq & interim & g' & tops & v & Hgen & Hperm & Hrep & Hint & _).
  exists seq, interim, g'. split; [done|]. by exists tops, v.
Qed.

(** The attempts that a run of the loop adds. *)
Lemma search_loop_run clock numbers target closest0 attempts0 g :
  length numbers = 6%nat →
  ∃ closest new g',
    search_loop clock numbers target closest0 attempts0 g
      = Ok (closest, new ++ attempts0, g')
    ∧ Forall (generated numbers) new
    ∧ Forall (λ attempt, target ∉ attempt.2) (tail new)
    ∧ (length new ≤ allowed clock)%nat
    ∧ (length new = allowed clock
       ∨ ∃ attempt rest, new = attempt :: rest ∧ target ∈ attempt.2).
Proof.
  intros Hlen. revert closest0 attempts0 g.
  induction clock as [|[] clock IH]; intros closest0 attempts0 g;
    cbn [search_loop allowed].
  - exists closest0, [], g. split_and!; [done|done|done|done|by left].
  - destruct (generateRandomSequence_generated numbers g Hlen)
      as (seq & interim & g1 & -> & Hgen).
    case_bool_decide as Hhit.
    + eexists _, [(seq, interim)], g1.
      split_and!; [done|by apply Forall_singleton|done|simpl; lia|].
      right. by eexists _, _.
    + destruct (IH (scan_results target seq interim closest0)
                  ((seq, interim) :: attempts0) g1)
        as (closest & new & g' & -> & Hnew & Hmiss & Hle & Hend).
      exists closest, (new ++ [(seq, interim)]), g'.
      rewrite <- app_assoc. rewrite length_app. simpl.
      split_and!; [done| | |lia|].
      * apply Forall_app. split; [done|]. by apply Forall_singleton.
      * destruct new as [|a new']; [done|]. simpl in *.
        apply Forall_app. split; [done|]. by apply Forall_singleton.
      * destruct Hend as [Heq|(a & rest & -> & Ha)]; [left; lia|].
        right. by exists a, (rest ++ [(seq, interim)]).
  - exists closest0, [], g. split_and!; [done|done|done|done|by left].
Qed.


(** What the program reports after a loop that has run. *)
Lemma main_search_report clock numbers target g :
  length numbers = 6%nat →
  (0 < allowed clock)%nat →
  ∃ closest attempts g' r attempt,
    search_loop clock numbers target None [] g = Ok (closest, attempts, g')
    ∧ main_search numbers target clock g = inr r
    ∧ attempt ∈ attempts
    ∧ generated numbers attempt
    ∧ shown_sequence r = attempt.1
    ∧ shown_target r ∈ attempt.2
    ∧ formatSolution (shown_sequence r) (shown_target r) true
      = Ok (formattedSolution r, numbersUsed r)
    ∧ ∀ x, x ∈ results_seen attempts →
           Z.abs (target - shown_target r) ≤ Z.abs (target - x.1).
Proof.
  intros Hlen Hclock.
  destruct (search_loop_run clock numbers target None [] g Hlen)
    as (closest & attempts & g' & Hloop & Hgen & _ & _ & Hend).
  rewrite app_nil_r in Hloop.
  assert (Hclosest : closest = scan_attempts target (rev attempts) None).
  { by apply (search_loop_closest clock numbers target None [] g
                closest attempts g'). }
  unfold main_search. rewrite Hloop.
  destruct attempts as [|[seq interim] rest].
  { destruct Hend as [Hend|(? & ? & ? & _)]; [simpl in Hend; lia|done]. }
  assert (Hfirst : generated numbers (seq, interim))
    by by apply Forall_cons in Hgen as [? _].
  assert (Hformat : ∀ attempt v,
            attempt ∈ (seq, interim) :: rest →
            ∃ output n, formatSolution attempt.1 v true = Ok (output, n)).
  { intros attempt v Hin. rewrite Forall_forall in Hgen.
    destruct (Hgen attempt Hin) as (tops & w & _ & Hrep & _).
    by eapply formatSolution_replay_returns. }
  assert (Hrev : ∀ x, x ∈ results_seen (rev ((seq, interim) :: rest)) ↔
                      x ∈ results_seen ((seq, interim) :: rest)).
  { intros x. rewrite !elem_of_results_seen.
    split; intros (a & Ha & ?); exists a; (split; [|done]);
      by apply elem_of_rev. }
  assert (Hseen : results_seen (rev ((seq, interim) :: rest)) ≠ []).
  { intros Hnil. destruct Hfirst as (tops & w & _ & _ & Hint). simpl in Hint.
    assert (Hx : (hd 0 interim, seq)
                 ∈ results_seen (rev ((seq, interim) :: rest))).
    { apply Hrev, elem_of_results_seen. exists (seq, interim).
      split; [apply list_elem_of_here|]. split; [done|]. simpl.
      destruct numbers as [|n numbers]; [done|]. rewrite Hint. simpl.
      apply list_elem_of_here. }
    rewrite Hnil in Hx. by apply elem_of_nil in Hx. }
  rewrite scan_attempts_seen in Hclosest.
  destruct (scan_seen_earliest target _ Hseen) as ([v s] & Hscan & Hbest).
  rewrite Hscan in Hclosest. subst closest.
  pose proof (earliest_closest_all _ _ _ Hbest) as Hmin. simpl in Hmin.
  assert (Hbestin : (v, s) ∈ results_seen ((seq, interim) :: rest)).
  { apply Hrev. destruct Hbest as (pre & post & -> & _).
    apply elem_of_app. right. apply list_elem_of_here. }
  apply elem_of_results_seen in Hbestin as (attempt & Hatt & Hs & Hv).
  simpl in Hs, Hv. subst s.
  unfold main_after_loop. case_bool_decide as Hmiss.
  - destruct (Hformat attempt v Hatt) as (output & n & Hfmt). rewrite Hfmt.
    eexists _, _, g', _, attempt.
    split_and!; [done|done|done| |done|done|done|].
    + rewrite Forall_forall in Hgen. by apply Hgen.
    + intros x Hx. apply Hmin. by apply Hrev.
  - destruct (Hformat (seq, interim) target (list_elem_of_here _ _))
      as (output & n & Hfmt).
    simpl in Hfmt. rewrite Hfmt.
    eexists _, _, g', _, (seq, interim).
    split_and!; [done|done|apply list_elem_of_here|done|done|done|done|].
    intros x Hx. simpl. rewrite Z.sub_diag. simpl. lia.
Qed.


(** X16. The solution printed is right unless it is a bare source number:
    for six numbers, when the value shown (the target if it was found,
    the closest value if not) is none of the six numbers, the string is an
    expression followed by [" = "] and the value shown, the value of the
    expression is the value shown, and the numbers of the expression are
    source numbers, none taken more often than it was given. *)
Theorem main_search_solution (numbers : list Z) (target : Z)
    (clock : list bool) (g : rng) (r : report) :
  length numbers = 6%nat →
  main_search numbers target clock g = inr r →
  shown_target r ∉ numbers →
  ∃ e, formattedSolution r = render e +:+ " = " +:+ str (shown_target r)
       ∧ value e = Some (shown_target r)
       ∧ leaves e ⊆+ numbers.
Proof.
  intros Hlen Hmain Hnot.
  destruct (decide (allowed clock = 0%nat)) as [Hzero|Hpos].
  { unfold main_search in Hmain. by destruct clock as [|[] clock]. }
  destruct (main_search_report clock numbers target g Hlen)
    as (_ & _ & _ & r' & attempt & _ & Hmain' & _ & Hgen & Hseq & Hin
        & Hfmt & _); [lia|].
  rewrite Hmain in Hmain'. injection Hmain' as <-.
  destruct Hgen as (tops & w & Hperm & Hrep & Hint).
  rewrite Hint in Hin. apply elem_of_app in Hin as [Hin|Hin]; [done|].
  rewrite <- Hseq in Hperm, Hrep.
  destruct (formatSolution_reaches _ (shown_target r) true _ _ Hrep Hin)
    as (output & n & e & Hfmt' & Hout & Hval & Hsub); [by rewrite Hperm|].
  rewrite Hfmt in Hfmt'. injection Hfmt' as <- <-.
  exists e. split_and!; [done|done|]. by rewrite <- Hperm.
Qed.
End SearchRun.

Section SearchReport.
Context `{Random}.

(** X17. The value shown is as close as any: for six numbers, the value
    shown is an interim result of the sequence shown, which is one of the
    attempts of the loop, and no interim result of any attempt is closer
    to the target. *)
Theorem main_search_closest (numbers : list Z) (target : Z)
    (clock : list bool) (g : rng) (r : report) :
  length numbers = 6%nat →
  main_search numbers target clock g = inr r →
  ∃ closest attempts g' interimResults,
    search_loop clock numbers target None [] g = Ok (closest, attempts, g')
    ∧ (shown_sequence r, interimResults) ∈ attempts
    ∧ shown_target r ∈ interimResults
    ∧ ∀ x, x ∈ results_seen attempts →
           Z.abs (target - shown_target r) ≤ Z.abs (target - x.1).
Proof.
  intros Hlen Hmain.
  destruct (decide (allowed clock = 0%nat)) as [Hzero|Hpos].
  { unfold main_search in Hmain. by destruct clock as [|[] clock]. }
  destruct (main_search_report clock numbers target g Hlen)
    as (closest & attempts & g' & r' & [seq interim] & Hloop & Hmain' & Hatt
        & _ & Hseq & Hin & _ & Hmin); [lia|].
  rewrite Hmain in Hmain'. injection Hmain' as <-.
  exists closest, attempts, g', interim. simpl in *. by rewrite Hseq.
Qed.
End SearchReport.



Lemma main_search_solution_witness :
  (length six_numbers = 6%nat
   ∧ @main_search tape_random six_numbers 44 [true; true; false] short_tape
     = inr report_44
   ∧ (shown_target report_44 ∉ six_numbers))
  ∧ ∃ e, formattedSolution report_44
         = render e +:+ " = " +:+ str (shown_target report_44)
         ∧ value e = Some (shown_target report_44)
         ∧ leaves e ⊆+ six_numbers.
Proof.
  assert (Hnot : shown_target report_44 ∉ six_numbers) by elem_solve.
  split; [split_and!; [reflexivity|by vm_compute|exact Hnot]|].
  apply (@main_search_solution tape_random six_numbers 44 [true; true; false]
           short_tape report_44); [reflexivity|by vm_compute|exact Hnot].
Defined.

Lemma main_search_closest_witness :
  (length six_numbers = 6%nat
   ∧ @main_search tape_random six_numbers 44 [true; true; false] short_tape
     = inr report_44)
  ∧ ∃ closest attempts g' interimResults,
      @search_loop tape_random [true; true; false] six_numbers 44 None []
        short_tape = Ok (closest, attempts, g')
      ∧ (shown_sequence report_44, interimResults) ∈ attempts
      ∧ shown_target report_44 ∈ interimResults
      ∧ ∀ x, x ∈ results_seen attempts →
             Z.abs (44 - shown_target report_44) ≤ Z.abs (44 - x.1).
Proof.
  split; [split; [reflexivity|by vm_compute]|].
  apply (@main_search_closest tape_random six_numbers 44 [true; true; false]
           short_tape report_44); [reflexivity|by vm_compute].
Defined.

(** When the target is one of the six numbers the equation shown need
    not hold: the search stops at once, and the whole sequence is
    formatted unless an operator happens to leave the target. *)
Example main_search_source_number :
  @main_search tape_random six_numbers 25 [true; true; false] short_tape
  = inr {| shown_target := 25;
           shown_sequence := [PInt 6; PInt 1; PStr "+"; PInt 1; PStr "+";
                              PInt 3; PInt 8; PInt 25; PStr "+"; PStr "+";
                              PStr "+"];
           formattedSolution := "(((25 + 8) + 3) + ((6 + 1) + 1)) = 25";
           numbersUsed := 6 |}.
Proof. by vm_compute. Qed.

Section SearchSourceNumber.
Context `{Random}.

End SearchSourceNumber.


(** ** generateNumbers *)

Lemma tiles_in_range l :
  l ⊆+ bigs ∨ l ⊆+ littles → Forall (λ x, 1 ≤ x ≤ 100) l.
Proof.
  intros Hsub. apply Forall_forall. intros x Hx.
  assert (Hin : x ∈ bigs ∨ x ∈ littles).
  { destruct Hsub as [Hsub|Hsub]; [left|right];
      by eapply elem_of_submseteq. }
  destruct Hin as [Hin|Hin]; vm_compute in Hin; elem_cases Hin; lia.
Qed.

Section GenerateNumbersFacts.
Context `{RandomTiles}.

Lemma generateNumbers_Some n g :
  0 ≤ n ≤ 4 →
  ∃ big little g',
    generateNumbers (Some n) g = (Ok (big ++ little), g')
    ∧ big ⊆+ bigs
    ∧ little ⊆+ littles
    ∧ Z.of_nat (length big) = n
    ∧ Z.of_nat (length little) = 6 - n.
Proof.
  intros Hn. unfold generateNumbers.
  destruct (random_sample_int_Ok bigs n g) as (big & Hbig & Hlen & Hsub).
  { simpl. lia. }
  destruct (random_sample_int bigs n g) as [rb g1]. simpl in Hbig. subst rb.
  destruct (random_sample_int_Ok littles (6 - n) g1)
    as (little & Hlittle & Hlen' & Hsub').
  { change (length littles) with 20%nat. lia. }
  destruct (random_sample_int littles (6 - n) g1) as [rl g2].
  simpl in Hlittle. subst rl.
  by exists big, little, g2.
Qed.

Lemma generateNumbers_Some_Raise n g :
  ¬ (0 ≤ n ≤ 4) → (generateNumbers (Some n) g).1 = Raise ValueError.
Proof.
  intros Hn. unfold generateNumbers.
  pose proof (random_sample_int_Raise bigs n g) as Hraise.
  destruct (random_sample_int bigs n g) as [rb g1]. simpl in Hraise.
  rewrite Hraise; [done|]. simpl. lia.
Qed.

(** The number of large tiles that is used: the one given, or the one
    chosen from 0 to 4. *)
Lemma generateNumbers_choice numBig g :
  ∃ n g1,
    generateNumbers numBig g = generateNumbers (Some n) g1
    ∧ match numBig with Some m => m = n | None => 0 ≤ n ≤ 4 end.
Proof.
  destruct numBig as [n|]; [by exists n, g|].
  pose proof (random_choice_elem [0; 1; 2; 3; 4] g) as Hc.
  unfold generateNumbers.
  destruct (random_choice [0; 1; 2; 3; 4] g) as [n g1]. simpl in Hc.
  exists n, g1. split; [done|].
  specialize (Hc ltac:(done)). elem_cases Hc; lia.
Qed.

(** What is returned when numbers are returned. *)
Lemma generateNumbers_Ok numBig g numbers g' :
  generateNumbers numBig g = (Ok numbers, g') →
  ∃ big little,
    numbers = big ++ little
    ∧ big ⊆+ bigs
    ∧ little ⊆+ littles
    ∧ (∀ n, numBig = Some n → Z.of_nat (length big) = n)
    ∧ length numbers = 6%nat.
Proof.
  destruct (generateNumbers_choice numBig g) as (n & g1 & -> & Hn).
  intros Hgen.
  destruct (decide (0 ≤ n ≤ 4)) as [Hrange|Hrange].
  - destruct (generateNumbers_Some n g1 Hrange)
      as (big & little & g2 & Hgen' & Hbig & Hlittle & Hlen & Hlen').
    rewrite Hgen in Hgen'. injection Hgen' as -> ->.
    exists big, little. split_and!; [done|done|done| |].
    + intros m ->. by subst m.
    + rewrite length_app. lia.
  - pose proof (generateNumbers_Some_Raise n g1 Hrange) as Hraise.
    by rewrite Hgen in Hraise.
Qed.

(** X19. The tiles drawn follow the rules of the game: for a number of
    large tiles from 0 to 4, or none given, [generateNumbers] returns six
    numbers, first the large ones, all different and taken from 25, 50, 75
    and 100, as many as asked for, then small ones from 1 to 10, none more
    than twice. All six lie between 1 and 100. *)
Theorem generateNumbers_tiles (numBig : option Z) (g : rng) :
  (∀ n, numBig = Some n → 0 ≤ n ≤ 4) →
  ∃ big little g',
    generateNumbers numBig g = (Ok (big ++ little), g')
    ∧ big ⊆+ bigs
    ∧ little ⊆+ littles
    ∧ (∀ n, numBig = Some n → Z.of_nat (length big) = n)
    ∧ length (big ++ little) = 6%nat
    ∧ Forall (λ x, 1 ≤ x ≤ 100) (big ++ little).
Proof.
  intros Hnum.
  destruct (generateNumbers_choice numBig g) as (n & g1 & Hgen & Hn).
  assert (Hrange : 0 ≤ n ≤ 4).
  { destruct numBig as [m|]; [subst m; by apply Hnum|done]. }
  destruct (generateNumbers_Some n g1 Hrange)
    as (big & little & g' & Hgen' & Hbig & Hlittle & Hlen & Hlen').
  rewrite Hgen' in Hgen.
  exists big, little, g'. split_and!; [done|done|done| | |].
  - intros m ->. by subst m.
  - rewrite length_app. lia.
  - apply Forall_app. split; apply tiles_in_range; auto.
Qed.

(** X20. More large tiles than there are: for a number of large tiles
    below 0 or above 4, [generateNumbers] raises ValueError. *)
Theorem generateNumbers_out_of_range (n : Z) (g : rng) :
  ¬ (0 ≤ n ≤ 4) →
  (generateNumbers (Some n) g).1 = Raise ValueError.
Proof. apply generateNumbers_Some_Raise. Qed.

(** X21. The numbers drawn are numbers for the generator: with the six
    numbers that [generateNumbers] returns, [generateRandomSequence]
    returns a sequence of these numbers and produces no negative interim
    result. *)
Theorem generateNumbers_then_sequence (numBig : option Z) (g g1 : rng)
    (numbers : list Z) :
  generateNumbers numBig g = (Ok numbers, g1) →
  ∃ seq interim g2,
    generateRandomSequence numbers g1 = Ok (seq, interim, g2)
    ∧ numbers_of seq ≡ₚ numbers
    ∧ Forall (λ x, 0 ≤ x) interim.
Proof.
  intros (big & little & -> & Hbig & Hlittle & _ & Hlen)%generateNumbers_Ok.
  apply generateRandomSequence_interim_nonneg; [done|].
  eapply Forall_impl.
  - apply Forall_app. split; apply tiles_in_range; eauto.
  - simpl. lia.
Qed.
End GenerateNumbersFacts.

Lemma generateNumbers_tiles_witness :
  (∀ n, Some 2 = Some n → 0 ≤ n ≤ 4)
  ∧ ∃ big little g',
      @generateNumbers tape_random tape_tiles (Some 2) [1; 3]%nat
        = (Ok (big ++ little), g')
      ∧ big ⊆+ bigs
      ∧ little ⊆+ littles
      ∧ (∀ n, Some 2 = Some n → Z.of_nat (length big) = n)
      ∧ length (big ++ little) = 6%nat
      ∧ Forall (λ x, 1 ≤ x ≤ 100) (big ++ little).
Proof.
  assert (Hnum : ∀ n, Some 2 = Some n → 0 ≤ n ≤ 4) by (intros n [= <-]; lia).
  split; [exact Hnum|].
  exact (@generateNumbers_tiles tape_random tape_tiles (Some 2) [1; 3]%nat
           Hnum).
Defined.

Lemma generateNumbers_out_of_range_witness :
  ¬ (0 ≤ 5 ≤ 4)
  ∧ (@generateNumbers tape_random tape_tiles (Some 5) [1; 3]%nat).1
    = Raise ValueError.
Proof.
  assert (Hn : ¬ (0 ≤ 5 ≤ 4)) by lia.
  split; [exact Hn|].
  exact (@generateNumbers_out_of_range tape_random tape_tiles 5 [1; 3]%nat Hn).
Defined.

Example generateNumbers_two_large :
  @generateNumbers tape_random tape_tiles (Some 2) [1; 3]%nat
  = (Ok [50; 75; 4; 5; 6; 7], []).
Proof. by vm_compute. Qed.

Lemma generateNumbers_then_sequence_witness :
  @generateNumbers tape_random tape_tiles (Some 2) [1; 3]%nat
    = (Ok [50; 75; 4; 5; 6; 7], [])
  ∧ ∃ seq interim g2,
      @generateRandomSequence tape_random [50; 75; 4; 5; 6; 7] []
        = Ok (seq, interim, g2)
      ∧ numbers_of seq ≡ₚ [50; 75; 4; 5; 6; 7]
      ∧ Forall (λ x, 0 ≤ x) interim.
Proof.
  split; [by vm_compute|].
  apply (@generateNumbers_then_sequence tape_random tape_tiles (Some 2)
           [1; 3]%nat). by vm_compute.
Defined.
